(** * EncryptedGuessingGame: a shallow embedding of the contract and its properties

    The development follows [contracts/EncryptedGuessingGame.sol]:
    - [Keccak] and [Abi] give the EVM primitives [keccak256] and
      [abi.encodePacked] used by [_generateSecret];
    - [FHE] is a plaintext-semantics model of the encrypted-integer library the
      contract calls (handles, homomorphic operators, access-control list);
    - [Game] is the contract: storage, the revert monad its functions run in,
      the functions themselves and the transaction dispatcher;
    - [Ref] and [Scenario] hold the definitions the statements are written
      with and a concrete deployment to instantiate them;
    - [Tally] counts along traces and names the invariants of reachable states;
    - [GameApp] is the part of the front end that computes: [interpretResult]
      and the checks [handleGuess] starts with;
    - the theorems come last. *)

From Stdlib Require Import ZArith List Bool Lia.
From stdpp Require Import gmap.
From Stdlib Require Strings.String.
Import ListNotations.

Local Open Scope Z_scope.

(** ** Keccak-256, the EVM's [keccak256] *)

Module Keccak.

Definition mask64 : Z := 0xFFFFFFFFFFFFFFFF.

Definition rotl64 (x n : Z) : Z :=
  Z.land (Z.lor (Z.shiftl x n) (Z.shiftr x (64 - n))) mask64.

Definition not64 (x : Z) : Z := Z.lxor x mask64.

(** Round constants of the iota step. *)
Definition RC : list Z :=
  [ 0x0000000000000001; 0x0000000000008082; 0x800000000000808A;
    0x8000000080008000; 0x000000000000808B; 0x0000000080000001;
    0x8000000080008081; 0x8000000000008009; 0x000000000000008A;
    0x0000000000000088; 0x0000000080008009; 0x000000008000000A;
    0x000000008000808B; 0x800000000000008B; 0x8000000000008089;
    0x8000000000008003; 0x8000000000008002; 0x8000000000000080;
    0x000000000000800A; 0x800000008000000A; 0x8000000080008081;
    0x8000000000008080; 0x0000000080000001; 0x8000000080008008 ].

(** Rotation offsets of the rho step; lane [(x, y)] sits at index [x + 5 y]. *)
Definition rho_offsets : list Z :=
  [  0;  1; 62; 28; 27;
    36; 44;  6; 55; 20;
     3; 10; 43; 25; 39;
    41; 45; 15; 21;  8;
    18;  2; 61; 56; 14 ].

Definition lanes := list Z.

Definition idx (x y : nat) : nat := ((x mod 5) + 5 * (y mod 5))%nat.

Definition lane (A : lanes) (x y : nat) : Z := nth (idx x y) A 0.

Definition tabulate (f : nat -> nat -> Z) : lanes :=
  map (fun i => f (i mod 5)%nat (i / 5)%nat) (seq 0 25).

Definition column (A : lanes) (x : nat) : Z :=
  Z.lxor (lane A x 0)
    (Z.lxor (lane A x 1) (Z.lxor (lane A x 2) (Z.lxor (lane A x 3) (lane A x 4)))).

Definition theta (A : lanes) : lanes :=
  let C := map (column A) (seq 0 5) in
  let c x := nth (x mod 5)%nat C 0 in
  tabulate (fun x y => Z.lxor (lane A x y) (Z.lxor (c (x + 4)%nat) (rotl64 (c (x + 1)%nat) 1))).

(** rho and pi together: [B[y, 2x+3y] = rotl (A[x, y], r[x, y])], read from
    the side of the target lane. *)
Definition rho_pi (A : lanes) : lanes :=
  tabulate (fun X Y =>
    let x := ((X + 3 * Y) mod 5)%nat in
    rotl64 (lane A x X) (nth (idx x X) rho_offsets 0)).

Definition chi (B : lanes) : lanes :=
  tabulate (fun x y =>
    Z.lxor (lane B x y) (Z.land (not64 (lane B (x + 1) y)) (lane B (x + 2) y))).

Definition iota (rc : Z) (A : lanes) : lanes :=
  match A with
  | [] => []
  | a :: rest => Z.lxor a rc :: rest
  end.

Definition round (A : lanes) (rc : Z) : lanes := iota rc (chi (rho_pi (theta A))).

Definition keccak_f (A : lanes) : lanes := fold_left round RC A.

(** Sponge with rate 136 bytes and the original Keccak padding [0x01 .. 0x80]. *)
Definition rate : nat := 136.

Definition pad (len : nat) : list Z :=
  let q := (rate - len mod rate)%nat in
  match q with
  | 1%nat => [0x81]
  | _ => 0x01 :: repeat 0 (q - 2) ++ [0x80]
  end.

Fixpoint chunks (fuel : nat) (bs : list Z) : list (list Z) :=
  match fuel with
  | O => []
  | S fuel' =>
      match bs with
      | [] => []
      | _ => firstn rate bs :: chunks fuel' (skipn rate bs)
      end
  end.

Definition le_lane (bs : list Z) : Z := fold_right (fun b acc => b + 256 * acc) 0 bs.

Definition block_lanes (blk : list Z) : lanes :=
  map (fun i => le_lane (firstn 8 (skipn (8 * i) blk))) (seq 0 25).

Fixpoint xor_lanes (A B : lanes) : lanes :=
  match A, B with
  | a :: A', b :: B' => Z.lxor a b :: xor_lanes A' B'
  | _, _ => A
  end.

Definition absorb (A : lanes) (blk : list Z) : lanes :=
  keccak_f (xor_lanes A (block_lanes blk)).

Definition lane_bytes (l : Z) : list Z :=
  map (fun i => Z.land (Z.shiftr l (8 * Z.of_nat i)) 0xFF) (seq 0 8).

(** Big-endian value of a byte string. *)
Definition be_value (bs : list Z) : Z := fold_left (fun acc b => 256 * acc + b) bs 0.

Definition digest_bytes (bs : list Z) : list Z :=
  let padded := bs ++ pad (length bs) in
  let A := fold_left absorb (chunks (length padded) padded) (repeat 0 25) in
  flat_map lane_bytes (firstn 4 A).

(** [keccak256 bs] as the [uint256] that Solidity's [uint256(keccak256(..))] yields. *)
Definition keccak256 (bs : list Z) : Z := be_value (digest_bytes bs).

End Keccak.

(** ** [abi.encodePacked] on the static types the contract packs *)

Module Abi.

(** The [n] big-endian bytes of [v] (a [uintN], [bytesN] or [address] word). *)
Definition be_bytes (n : nat) (v : Z) : list Z :=
  map (fun i => (v / 256 ^ Z.of_nat (n - 1 - i)) mod 256) (seq 0 n).

Definition uint256 (v : Z) : list Z := be_bytes 32 v.
Definition bytes32 (v : Z) : list Z := be_bytes 32 v.
Definition address (v : Z) : list Z := be_bytes 20 v.

Definition encodePacked (parts : list (list Z)) : list Z := concat parts.

End Abi.

(** ** The encrypted-integer library

    The contract only composes calls into the FHE library; the ciphertexts
    never leave it.  A handle is modelled by the expression that produced it
    (the library derives a handle from the operator and the operand handles),
    and its plaintext by evaluating that expression on 32-bit words.  The
    access-control list records which address may read which handle. *)

Module FHE.

Inductive euint32 : Type :=
| CtNull                                   (* bytes32(0): never initialised *)
| CtTrivial (v : Z)                        (* asEuint32 of a clear value *)
| CtInput (h : Z) (v : Z)                  (* verified user input [h] hiding [v] *)
| CtSub (a b : euint32)
| CtSelect (c : ebool) (a b : euint32)
with ebool : Type :=
| CtGt (a b : euint32)
| CtEq (a b : euint32).

Definition wrap32 (v : Z) : Z := v mod 2 ^ 32.

(** Plaintext behind a handle. An uninitialised handle reads as zero. *)
Fixpoint decrypt (c : euint32) : Z :=
  match c with
  | CtNull => 0
  | CtTrivial v => wrap32 v
  | CtInput _ v => wrap32 v
  | CtSub a b => wrap32 (decrypt a - decrypt b)
  | CtSelect c a b => if decryptBool c then decrypt a else decrypt b
  end
with decryptBool (c : ebool) : bool :=
  match c with
  | CtGt a b => decrypt a >? decrypt b
  | CtEq a b => decrypt a =? decrypt b
  end.

Fixpoint euint32_eqb (x y : euint32) : bool :=
  match x, y with
  | CtNull, CtNull => true
  | CtTrivial v, CtTrivial w => v =? w
  | CtInput h v, CtInput k w => (h =? k) && (v =? w)
  | CtSub a b, CtSub a' b' => euint32_eqb a a' && euint32_eqb b b'
  | CtSelect c a b, CtSelect c' a' b' =>
      ebool_eqb c c' && euint32_eqb a a' && euint32_eqb b b'
  | _, _ => false
  end
with ebool_eqb (x y : ebool) : bool :=
  match x, y with
  | CtGt a b, CtGt a' b' => euint32_eqb a a' && euint32_eqb b b'
  | CtEq a b, CtEq a' b' => euint32_eqb a a' && euint32_eqb b b'
  | _, _ => false
  end.

Definition isInitialized (c : euint32) : bool :=
  match c with
  | CtNull => false
  | _ => true
  end.

Definition asEuint32 (v : Z) : euint32 := CtTrivial v.

(** The binary operators replace an uninitialised operand by [asEuint32(0)]. *)
Definition operand (c : euint32) : euint32 :=
  if isInitialized c then c else asEuint32 0.

Definition gt (a b : euint32) : ebool := CtGt (operand a) (operand b).
Definition eq (a b : euint32) : ebool := CtEq (operand a) (operand b).
Definition sub (a b : euint32) : euint32 := CtSub (operand a) (operand b).
Definition select (c : ebool) (a b : euint32) : euint32 := CtSelect c a b.

(** [fromExternal] hands the handle and its proof to the input verifier,
    whose verdict [verify] is the plaintext the handle was attested for. *)
Definition fromExternal (verify : Z -> list Z -> option Z)
    (inputHandle : Z) (inputProof : list Z) : option euint32 :=
  match verify inputHandle inputProof with
  | Some v => Some (CtInput inputHandle v)
  | None => None
  end.

(** Persistent allowances: [(h, a)] lets address [a] read (decrypt) [h]. *)
Definition ACL : Type := list (euint32 * Z).

Definition allow (h : euint32) (account : Z) (l : ACL) : ACL := (h, account) :: l.

Definition isAllowed (h : euint32) (account : Z) (l : ACL) : bool :=
  existsb (fun e => euint32_eqb (fst e) h && (snd e =? account)) l.

End FHE.

(** ** The contract *)

Module Game.

Import FHE.

Abbreviation address := Z (only parsing).

Definition ENTRY_FEE : Z := 10 ^ 15.            (* 1e15 wei = 0.001 ether *)
Definition MAX_UINT256 : Z := 2 ^ 256 - 1.

Record PlayerState : Type := mkPlayer {
  secret : euint32;
  lastResult : euint32;
  joined : bool
}.

(** The value a mapping yields for a key never written. *)
Definition noPlayer : PlayerState :=
  {| secret := CtNull; lastResult := CtNull; joined := false |}.

Inductive Event : Type :=
| PlayerJoined (player : address) (round : Z)
| GuessEvaluated (player : address) (round : Z)
| Withdrawal (recipient : address) (amount : Z).

Inductive Error : Type :=
| InvalidEntryFee
| PlayerNotJoined
| InvalidRecipient
| InvalidAmount
| WithdrawalFailed
| NotOwner
| Panic (code : Z)            (* checked arithmetic: 0x11 on over/underflow *)
| InvalidInput                (* the input verifier rejected handle and proof *)
| NonPayable.                 (* value sent to a function not marked payable *)

(** Contract storage, the balance the contract holds, the allowances it
    has recorded in the ACL and the events it has emitted (newest first). *)
Record State : Type := mkState {
  _owner : address;
  _nonce : Z;
  _players : gmap Z PlayerState;
  _rounds : gmap Z Z;
  balance : Z;
  acl : ACL;
  events : list Event
}.

(** What a call sees of the transaction, the block and the world outside. *)
Record Env : Type := mkEnv {
  msg_sender : address;
  msg_value : Z;
  this : address;                                 (* address(this) *)
  block_timestamp : Z;
  block_number : Z;
  blockhash : Z -> Z;
  verifyInput : Z -> list Z -> option Z;          (* input verifier's verdict *)
  call_accepts : address -> Z -> bool             (* does recipient.call{value}("") succeed *)
}.

(** *** Mapping reads and writes *)

Definition player_of (s : State) (a : address) : PlayerState :=
  default noPlayer (_players s !! a).

Definition round_of (s : State) (a : address) : Z :=
  default 0 (_rounds s !! a).

Definition set_player (a : address) (p : PlayerState) (s : State) : State :=
  {| _owner := _owner s; _nonce := _nonce s;
     _players := <[a := p]> (_players s); _rounds := _rounds s;
     balance := balance s; acl := acl s; events := events s |}.

Definition set_round (a : address) (r : Z) (s : State) : State :=
  {| _owner := _owner s; _nonce := _nonce s;
     _players := _players s; _rounds := <[a := r]> (_rounds s);
     balance := balance s; acl := acl s; events := events s |}.

Definition set_nonce (n : Z) (s : State) : State :=
  {| _owner := _owner s; _nonce := n;
     _players := _players s; _rounds := _rounds s;
     balance := balance s; acl := acl s; events := events s |}.

Definition set_balance (b : Z) (s : State) : State :=
  {| _owner := _owner s; _nonce := _nonce s;
     _players := _players s; _rounds := _rounds s;
     balance := b; acl := acl s; events := events s |}.

Definition set_acl (l : ACL) (s : State) : State :=
  {| _owner := _owner s; _nonce := _nonce s;
     _players := _players s; _rounds := _rounds s;
     balance := balance s; acl := l; events := events s |}.

Definition add_event (e : Event) (s : State) : State :=
  {| _owner := _owner s; _nonce := _nonce s;
     _players := _players s; _rounds := _rounds s;
     balance := balance s; acl := acl s; events := e :: events s |}.

(** *** The monad of a function body

    A body either returns with the state it built, or reverts with an error.
    [Revert] keeps the state reached when the error was raised, so that
    "nothing was written before the check failed" is a statement about the
    body; the rollback itself is [execute]'s. *)

Inductive Result (A : Type) : Type :=
| Ok (a : A) (s : State)
| Revert (e : Error) (s : State).
Arguments Ok {A} a s.
Arguments Revert {A} e s.

Definition M (A : Type) : Type := State -> Result A.

Definition ret {A} (a : A) : M A := fun s => Ok a s.

Definition bind {A B} (m : M A) (k : A -> M B) : M B :=
  fun s =>
    match m s with
    | Ok a s' => k a s'
    | Revert e s' => Revert e s'
    end.

Definition revert {A} (e : Error) : M A := fun s => Revert e s.
Definition get : M State := fun s => Ok s s.
Definition modify (f : State -> State) : M unit := fun s => Ok tt (f s).

Notation "'let*' x ':=' m 'in' k" := (bind m (fun x => k))
  (at level 10, x name, m at level 100, k at level 200).
Notation "m ;;; k" := (bind m (fun _ => k))
  (at level 100, k at level 200, right associativity).

(** Checked [uint256] arithmetic of Solidity 0.8. *)
Definition checked_add (a b : Z) : M Z :=
  if a + b >? MAX_UINT256 then revert (Panic 0x11) else ret (a + b).

Definition checked_sub (a b : Z) : M Z :=
  if a <? b then revert (Panic 0x11) else ret (a - b).

(** Writes through the storage pointer [PlayerState storage state]. *)
Definition write_secret (a : address) (v : euint32) : M unit :=
  modify (fun s =>
    let p := player_of s a in
    set_player a {| secret := v; lastResult := lastResult p; joined := joined p |} s).

Definition write_lastResult (a : address) (v : euint32) : M unit :=
  modify (fun s =>
    let p := player_of s a in
    set_player a {| secret := secret p; lastResult := v; joined := joined p |} s).

Definition write_joined (a : address) (b : bool) : M unit :=
  modify (fun s =>
    let p := player_of s a in
    set_player a {| secret := secret p; lastResult := lastResult p; joined := b |} s).

Definition allowThis (env : Env) (h : euint32) : M unit :=
  modify (fun s => set_acl (FHE.allow h (this env) (acl s)) s).

Definition allowTo (h : euint32) (account : address) : M unit :=
  modify (fun s => set_acl (FHE.allow h account (acl s)) s).

Definition emit (e : Event) : M unit := modify (add_event e).

(** *** constructor *)
Definition constructor (env : Env) : State :=
  {| _owner := msg_sender env; _nonce := 0; _players := ∅; _rounds := ∅;
     balance := 0; acl := []; events := [] |}.

(** *** _generateSecret *)
Definition _generateSecret (env : Env) (player : address) : M Z :=
  let* s := get in
  let* n := checked_add (_nonce s) 1 in
  modify (set_nonce n) ;;;
  let* prev := checked_sub (block_number env) 1 in
  let* s1 := get in
  let randomness :=
    Keccak.keccak256
      (Abi.encodePacked
         [ Abi.uint256 (block_timestamp env);
           Abi.bytes32 (blockhash env prev);
           Abi.address player;
           Abi.uint256 (_nonce s1) ]) in
  ret (wrap32 ((randomness mod 20) + 1)).

(** *** joinGame *)
Definition joinGame (env : Env) : M euint32 :=
  if negb (msg_value env =? ENTRY_FEE) then revert InvalidEntryFee else
  let* secretValue := _generateSecret env (msg_sender env) in
  let encryptedSecret := FHE.asEuint32 secretValue in
  let resetResult := FHE.asEuint32 0 in
  write_secret (msg_sender env) encryptedSecret ;;;
  write_lastResult (msg_sender env) resetResult ;;;
  write_joined (msg_sender env) true ;;;
  allowThis env encryptedSecret ;;;
  allowThis env resetResult ;;;
  let* s := get in
  let* round := checked_add (round_of s (msg_sender env)) 1 in
  modify (set_round (msg_sender env) round) ;;;
  emit (PlayerJoined (msg_sender env) round) ;;;
  ret encryptedSecret.

(** *** submitGuess

    [evaluate] is the block of [submitGuess] that computes [finalResult] from
    [guessValue] and [secretValue]; [submitGuess] is the function around it. *)
Definition evaluate (guessValue secretValue : euint32) : euint32 :=
  let guessGreaterThanSecret := FHE.gt guessValue secretValue in
  let difference :=
    FHE.sub
      (FHE.select guessGreaterThanSecret guessValue secretValue)
      (FHE.select guessGreaterThanSecret secretValue guessValue) in
  FHE.select
    (FHE.eq difference (FHE.asEuint32 0))
    (FHE.asEuint32 1)
    (FHE.select
       (FHE.eq difference (FHE.asEuint32 1))
       (FHE.asEuint32 2)
       (FHE.select (FHE.eq difference (FHE.asEuint32 2)) (FHE.asEuint32 3) (FHE.asEuint32 4))).

Definition submitGuess (env : Env) (encryptedGuess : Z) (inputProof : list Z) : M unit :=
  let* s := get in
  if negb (joined (player_of s (msg_sender env))) then revert PlayerNotJoined else
  match FHE.fromExternal (verifyInput env) encryptedGuess inputProof with
  | None => revert InvalidInput
  | Some guessValue =>
      let secretValue := secret (player_of s (msg_sender env)) in
      let finalResult := evaluate guessValue secretValue in
      write_lastResult (msg_sender env) finalResult ;;;
      allowThis env finalResult ;;;
      allowTo finalResult (msg_sender env) ;;;
      let* s' := get in
      emit (GuessEvaluated (msg_sender env) (round_of s' (msg_sender env)))
  end.

(** *** view functions *)
Definition getLatestResult (s : State) (player : address) : euint32 :=
  lastResult (player_of s player).
Definition getEncryptedSecret (s : State) (player : address) : euint32 :=
  secret (player_of s player).
Definition hasJoined (s : State) (player : address) : bool :=
  joined (player_of s player).
Definition getRound (s : State) (player : address) : Z := round_of s player.
Definition entryFee : Z := ENTRY_FEE.
Definition owner (s : State) : address := _owner s.

(** *** withdraw, under the onlyOwner modifier *)
Definition onlyOwner (env : Env) (body : M unit) : M unit :=
  let* s := get in
  if negb (msg_sender env =? _owner s) then revert NotOwner else body.

(** [recipient.call{value: amount}("")]: the value leaves the contract when
    the recipient accepts it.  Whether it does is the environment's to say;
    what a recipient contract might do while it holds control is not followed. *)
Definition call_value (env : Env) (recipient : address) (amount : Z) : M bool :=
  if call_accepts env recipient amount
  then (let* s := get in modify (set_balance (balance s - amount)) ;;; ret true)
  else ret false.

Definition withdraw (env : Env) (recipient : address) (amount : Z) : M unit :=
  onlyOwner env
    (if recipient =? 0 then revert InvalidRecipient else
     let* s := get in
     if (amount =? 0) || (amount >? balance s) then revert InvalidAmount else
     let* success := call_value env recipient amount in
     if negb success then revert WithdrawalFailed else
     emit (Withdrawal recipient amount)).

(** *** Transactions

    A call is dispatched to a function; a payable function is entered with
    the value already credited, any other refuses value; the effects of a
    reverting call are rolled back. *)
Inductive Call : Type :=
| JoinGame
| SubmitGuess (encryptedGuess : Z) (inputProof : list Z)
| Withdraw (recipient : address) (amount : Z).

Definition commit {A} (s : State) (r : Result A) : State * option Error :=
  match r with
  | Ok _ s' => (s', None)
  | Revert e _ => (s, Some e)
  end.

Definition execute (env : Env) (c : Call) (s : State) : State * option Error :=
  match c with
  | JoinGame => commit s (joinGame env (set_balance (balance s + msg_value env) s))
  | SubmitGuess g p =>
      if msg_value env =? 0 then commit s (submitGuess env g p s) else (s, Some NonPayable)
  | Withdraw r a =>
      if msg_value env =? 0 then commit s (withdraw env r a s) else (s, Some NonPayable)
  end.

Fixpoint run (txs : list (Env * Call)) (s : State) : State :=
  match txs with
  | [] => s
  | (env, c) :: rest => run rest (fst (execute env c s))
  end.

End Game.

(** ** Reference definitions used in the statements *)

Module Ref.

Import FHE Game.

(** The classification the cascade of selects computes, on the distance. *)
Definition code_of_distance (d : Z) : Z :=
  if d =? 0 then 1 else if d =? 1 then 2 else if d =? 2 then 3 else 4.

(** The derivation in the words of the specification: the digest of the
    concatenation of block timestamp, previous block's hash, participant and
    nonce, reduced modulo 20, plus 1. *)
Definition derivedSecret (env : Env) (player nonce : Z) : Z :=
  Keccak.keccak256
    (Abi.uint256 (block_timestamp env)
     ++ Abi.bytes32 (blockhash env (block_number env - 1))
     ++ Abi.address player
     ++ Abi.uint256 nonce) mod 20 + 1.

(** The state a successful [joinGame] leaves. *)
Definition joinedState (env : Env) (s : State) : State :=
  let v := derivedSecret env (msg_sender env) (_nonce s + 1) in
  let r := round_of s (msg_sender env) + 1 in
  {| _owner := _owner s;
     _nonce := _nonce s + 1;
     _players := <[msg_sender env := mkPlayer (CtTrivial v) (CtTrivial 0) true]> (_players s);
     _rounds := <[msg_sender env := r]> (_rounds s);
     balance := balance s;
     acl := (CtTrivial 0, this env) :: (CtTrivial v, this env) :: acl s;
     events := PlayerJoined (msg_sender env) r :: events s |}.

(** The state a successful [submitGuess] leaves, [guess] being the verified input. *)
Definition guessedState (env : Env) (guess : euint32) (s : State) : State :=
  let p := player_of s (msg_sender env) in
  let res := evaluate guess (secret p) in
  {| _owner := _owner s;
     _nonce := _nonce s;
     _players := <[msg_sender env := mkPlayer (secret p) res (joined p)]> (_players s);
     _rounds := _rounds s;
     balance := balance s;
     acl := (res, msg_sender env) :: (res, this env) :: acl s;
     events := GuessEvaluated (msg_sender env) (round_of s (msg_sender env)) :: events s |}.



End Ref.

(** ** A concrete deployment, used to instantiate the statements *)

Module Scenario.

Import FHE Game.

Definition deployer : Z := 0xD0.
Definition alice : Z := 0xA11CE.
Definition bob : Z := 0xB0B.
Definition gameAddress : Z := 0xC0FFEE.

(** A call by [sender] carrying [value] in block 100.  The input verifier of
    this deployment attests, for a non-empty proof, the low 32 bits of the
    handle; every recipient but the contract itself accepts plain value. *)
Definition call_env (sender value : Z) : Env :=
  {| msg_sender := sender;
     msg_value := value;
     this := gameAddress;
     block_timestamp := 1700000000;
     block_number := 100;
     blockhash := fun n => 0xB10C000000000000 + n;
     verifyInput := fun h proof =>
       match proof with
       | [] => None
       | _ => Some (h mod 2 ^ 32)
       end;
     call_accepts := fun recipient _ => negb (recipient =? gameAddress) |}.

Definition deployed : State := constructor (call_env deployer 0).

Definition alice_joins : Env * Call := (call_env alice ENTRY_FEE, JoinGame).
Definition bob_joins : Env * Call := (call_env bob ENTRY_FEE, JoinGame).
Definition alice_guesses (g : Z) : Env * Call := (call_env alice 0, SubmitGuess g [1]).

(** Alice has joined. *)
Definition after_join : State := run [alice_joins] deployed.

(** Alice has joined and had the guess 10 evaluated. *)
Definition after_guess : State := run [alice_joins; alice_guesses 10] deployed.

End Scenario.

(** ** Tallies along a trace *)

Module Tally.

Import FHE Game.




(** Every call of the trace is made to the contract deployed at [g]. *)
Definition callsTo (g : Z) (txs : list (Env * Call)) : Prop :=
  Forall (fun tx => this (fst tx) = g) txs.

(** The two shapes a player's record and round counter can have: joined, with
    a positive counter, a secret that is the encryption of a number in [1,20]
    and an initialised result handle; or never written, with counter 0. *)
Definition recordShape (s : State) (p : Z) : Prop :=
  (hasJoined s p = true /\
   0 < getRound s p /\
   (exists v, getEncryptedSecret s p = CtTrivial v /\ 1 <= v <= 20) /\
   isInitialized (getLatestResult s p) = true)
  \/
  (player_of s p = noPlayer /\ getRound s p = 0).

(** Every allowance is held by the contract at [g], or is over a result that
    [evaluate] produced. *)
Definition aclShape (g : Z) (l : ACL) : Prop :=
  Forall (fun e => snd e = g \/ exists x y, fst e = evaluate x y) l.

(** The bytes [_generateSecret] hashes, as a function of the four packed values. *)
Definition preimage (timestamp prevHash player nonce : Z) : list Z :=
  Abi.encodePacked
    [ Abi.uint256 timestamp; Abi.bytes32 prevHash; Abi.address player; Abi.uint256 nonce ].

End Tally.

(** ** The front end: [GameApp.tsx]

    [interpretResult] is the pure function of that name.  [handleGuess] is an
    event handler; [handleGuessChecks] is the chain of early returns with which
    it begins, as a function of the component state it reads, ending either in
    the status message it sets or in the number it goes on to encrypt and
    submit.  [guessNumber] stands for [Number(guessValue.trim())]: [Some n]
    when that is the integer [n], [None] when [Number.isInteger] rejects it. *)

Module GameApp.

Import Strings.String.

Definition interpretResult (value : Z) : option string :=
  match value with
  | 1 => Some "Perfect guess! You matched the secret exactly."%string
  | 2 => Some "Almost there. Your guess was off by one."%string
  | 3 => Some "Close attempt. You were off by two."%string
  | 4 => Some "The guess missed the mark. Try again!"%string
  | _ => None
  end.

Record View : Type := mkView {
  address : option Z;               (* the connected account, if any *)
  isContractConfigured : bool;
  hasJoined : bool;                 (* as last read from the contract *)
  guessNumber : option Z;
  instanceReady : bool              (* the encryption instance is loaded *)
}.

Inductive Outcome : Type :=
| Status (message : string)
| Submit (account : Z) (guess : Z).

Definition handleGuessChecks (v : View) : Outcome :=
  match address v with
  | None => Status "Connect your wallet to submit guesses."%string
  | Some account =>
      if negb (isContractConfigured v) then Status "Contract address is not configured."%string
      else if negb (hasJoined v) then Status "Join the game before submitting a guess."%string
      else
        match guessNumber v with
        | None => Status "Enter a number between 1 and 20."%string
        | Some n =>
            if (n <? 1) || (n >? 20) then Status "Enter a number between 1 and 20."%string
            else if negb (instanceReady v) then Status "Encryption service is not ready yet."%string
            else Submit account n
        end
  end.

End GameApp.

(** ** Properties *)

Import FHE Game Ref.

Arguments wrap32 : simpl never.

(** *** Keccak-256 on its published test vectors *)

Example keccak256_empty :
  Keccak.keccak256 []
  = 0xc5d2460186f7233c927e7db2dcc703c0e500b653ca82273b7bfad8045d85a470.
Proof. vm_compute. reflexivity. Qed.

Example keccak256_abc :
  Keccak.keccak256 [0x61; 0x62; 0x63]
  = 0x4e03657aea45a94fc7d47ba826c8d667c0d1e6e33a64a036ec44f58fa12d6c45.
Proof. vm_compute. reflexivity. Qed.

(** *** The encrypted-integer model *)

Lemma wrap32_range (v : Z) : 0 <= wrap32 v < 2 ^ 32.
Proof. unfold wrap32. apply Z.mod_pos_bound. lia. Qed.

Lemma wrap32_small (v : Z) : 0 <= v < 2 ^ 32 -> wrap32 v = v.
Proof. intros H. unfold wrap32. apply Z.mod_small. exact H. Qed.

Lemma decrypt_range (c : euint32) : 0 <= decrypt c < 2 ^ 32.
Proof.
  induction c as [ | v | h v | a IHa b IHb | c a IHa b IHb ]; simpl.
  - lia.
  - apply wrap32_range.
  - apply wrap32_range.
  - apply wrap32_range.
  - destruct (decryptBool c); assumption.
Qed.

Lemma decrypt_operand (c : euint32) : decrypt (operand c) = decrypt c.
Proof. destruct c; reflexivity. Qed.

Lemma decrypt_evaluate (guess secret : euint32) :
  decrypt (evaluate guess secret)
  = code_of_distance (Z.abs (decrypt guess - decrypt secret)).
Proof.
  pose proof (decrypt_range guess) as Hg.
  pose proof (decrypt_range secret) as Hs.
  unfold evaluate, FHE.select, FHE.sub, FHE.eq, FHE.gt, FHE.asEuint32.
  cbn [decrypt decryptBool operand isInitialized].
  rewrite !decrypt_operand.
  assert (Hd : wrap32 ((if decrypt guess >? decrypt secret then decrypt guess else decrypt secret)
                       - (if decrypt guess >? decrypt secret then decrypt secret else decrypt guess))
               = Z.abs (decrypt guess - decrypt secret)).
  { destruct (Z.gtb_spec (decrypt guess) (decrypt secret)); rewrite wrap32_small; lia. }
  rewrite Hd.
  rewrite !(wrap32_small 0), !(wrap32_small 1), !(wrap32_small 2),
          !(wrap32_small 3), !(wrap32_small 4) by lia.
  reflexivity.
Qed.

Lemma code_of_distance_values (d : Z) :
  code_of_distance d = 1 \/ code_of_distance d = 2 \/
  code_of_distance d = 3 \/ code_of_distance d = 4.
Proof.
  unfold code_of_distance.
  destruct (d =? 0); [ auto | ].
  destruct (d =? 1); [ auto | ].
  destruct (d =? 2); auto.
Qed.

Lemma euint32_eqb_trivial (v : Z) : euint32_eqb (CtTrivial v) (CtTrivial v) = true.
Proof. simpl. apply Z.eqb_refl. Qed.

(** *** What each function does, as one equation *)

Lemma generateSecret_run env player s :
  _generateSecret env player s =
  if _nonce s + 1 >? MAX_UINT256 then Revert (Panic 0x11) s
  else if block_number env <? 1 then Revert (Panic 0x11) (set_nonce (_nonce s + 1) s)
  else Ok (derivedSecret env player (_nonce s + 1)) (set_nonce (_nonce s + 1) s).
Proof.
  unfold _generateSecret, bind, get, checked_add, checked_sub, modify, revert, ret.
  destruct (_nonce s + 1 >? MAX_UINT256); [ reflexivity | ].
  destruct (block_number env <? 1); [ reflexivity | ].
  f_equal. unfold derivedSecret, Abi.encodePacked. cbn [concat set_nonce _nonce].
  rewrite app_nil_r.
  apply wrap32_small.
  pose proof (Z.mod_pos_bound
    (Keccak.keccak256
       (Abi.uint256 (block_timestamp env) ++
        Abi.bytes32 (blockhash env (block_number env - 1)) ++
        Abi.address player ++ Abi.uint256 (_nonce s + 1))) 20 ltac:(lia)).
  lia.
Qed.

Lemma joinGame_run env s :
  joinGame env s =
  if negb (msg_value env =? ENTRY_FEE) then Revert InvalidEntryFee s
  else if _nonce s + 1 >? MAX_UINT256 then Revert (Panic 0x11) s
  else if block_number env <? 1 then Revert (Panic 0x11) (set_nonce (_nonce s + 1) s)
  else if round_of s (msg_sender env) + 1 >? MAX_UINT256
       then Revert (Panic 0x11)
              (set_acl (acl (joinedState env s))
                 (set_player (msg_sender env)
                    (player_of (joinedState env s) (msg_sender env))
                    (set_nonce (_nonce s + 1) s)))
  else Ok (CtTrivial (derivedSecret env (msg_sender env) (_nonce s + 1))) (joinedState env s).
Proof.
  unfold joinGame.
  destruct (negb (msg_value env =? ENTRY_FEE)); [ reflexivity | ].
  unfold bind at 1. rewrite generateSecret_run.
  destruct (_nonce s + 1 >? MAX_UINT256); [ reflexivity | ].
  destruct (block_number env <? 1); [ reflexivity | ].
  unfold bind, write_secret, write_lastResult, write_joined, allowThis, modify, get,
    checked_add, emit, ret, revert, FHE.asEuint32, FHE.allow.
  unfold joinedState, set_player, set_acl, set_nonce, set_round, add_event, player_of, round_of.
  cbn [_owner _nonce _players _rounds balance acl events].
  rewrite !lookup_insert_eq.
  cbn [default from_option id secret lastResult joined].
  rewrite !insert_insert_eq.

  destruct (default 0 (_rounds s !! msg_sender env) + 1 >? MAX_UINT256); reflexivity.
Qed.

Lemma submitGuess_run env h proof s :
  submitGuess env h proof s =
  if negb (joined (player_of s (msg_sender env))) then Revert PlayerNotJoined s
  else match verifyInput env h proof with
       | None => Revert InvalidInput s
       | Some v => Ok tt (guessedState env (CtInput h v) s)
       end.
Proof.
  unfold submitGuess, FHE.fromExternal. unfold bind at 1. unfold get at 1.
  destruct (negb (joined (player_of s (msg_sender env)))); [ reflexivity | ].
  destruct (verifyInput env h proof) as [v | ]; [ | reflexivity ].
  unfold bind, write_lastResult, allowThis, allowTo, modify, get, emit, FHE.allow.
  unfold guessedState, set_player, set_acl, add_event, round_of.
  cbn [_owner _nonce _players _rounds balance acl events].
  reflexivity.
Qed.

Lemma withdraw_run env recipient amount s :
  withdraw env recipient amount s =
  if negb (msg_sender env =? _owner s) then Revert NotOwner s
  else if recipient =? 0 then Revert InvalidRecipient s
  else if (amount =? 0) || (amount >? balance s) then Revert InvalidAmount s
  else if call_accepts env recipient amount
       then Ok tt (add_event (Withdrawal recipient amount) (set_balance (balance s - amount) s))
       else Revert WithdrawalFailed s.
Proof.
  unfold withdraw, onlyOwner. unfold bind at 1. unfold get at 1.
  destruct (negb (msg_sender env =? _owner s)); [ reflexivity | ].
  destruct (recipient =? 0); [ reflexivity | ].
  unfold bind at 1. unfold get at 1.
  destruct ((amount =? 0) || (amount >? balance s)); [ reflexivity | ].
  unfold call_value, bind.
  destruct (call_accepts env recipient amount); reflexivity.
Qed.

(** *** What a transaction does to the state *)

Lemma execute_shape env c s :
  match snd (execute env c s), c with
  | None, JoinGame =>
      fst (execute env c s) = joinedState env (set_balance (balance s + msg_value env) s)
  | None, SubmitGuess h proof =>
      exists v, verifyInput env h proof = Some v /\
                hasJoined s (msg_sender env) = true /\
                fst (execute env c s) = guessedState env (CtInput h v) s
  | None, Withdraw recipient amount =>
      fst (execute env c s)
      = add_event (Withdrawal recipient amount) (set_balance (balance s - amount) s)
  | Some _, _ => fst (execute env c s) = s
  end.
Proof.
  destruct c as [ | h proof | recipient amount ]; unfold execute.
  - rewrite joinGame_run.
    destruct (negb (msg_value env =? ENTRY_FEE)); [ reflexivity | ].
    destruct (_nonce (set_balance (balance s + msg_value env) s) + 1 >? MAX_UINT256);
      [ reflexivity | ].
    destruct (block_number env <? 1); [ reflexivity | ].
    destruct (round_of (set_balance (balance s + msg_value env) s) (msg_sender env) + 1
              >? MAX_UINT256); reflexivity.
  - destruct (msg_value env =? 0); [ | reflexivity ].
    rewrite submitGuess_run. unfold hasJoined.
    destruct (joined (player_of s (msg_sender env))); [ | reflexivity ].
    cbn [negb].
    destruct (verifyInput env h proof) as [v | ]; [ | reflexivity ].
    cbn [commit fst snd]. exists v. repeat split.
  - destruct (msg_value env =? 0); [ | reflexivity ].
    rewrite withdraw_run.
    destruct (negb (msg_sender env =? _owner s)); [ reflexivity | ].
    destruct (recipient =? 0); [ reflexivity | ].
    destruct ((amount =? 0) || (amount >? balance s)); [ reflexivity | ].
    destruct (call_accepts env recipient amount); reflexivity.
Qed.

Lemma player_of_joinedState env s a :
  player_of (joinedState env s) a =
  if decide (msg_sender env = a)
  then mkPlayer (CtTrivial (derivedSecret env (msg_sender env) (_nonce s + 1))) (CtTrivial 0) true
  else player_of s a.
Proof.
  unfold joinedState, player_of. cbn [_players].
  rewrite lookup_insert. destruct (decide (msg_sender env = a)); reflexivity.
Qed.

Lemma round_of_joinedState env s a :
  round_of (joinedState env s) a =
  if decide (msg_sender env = a) then round_of s a + 1 else round_of s a.
Proof.
  unfold joinedState, round_of. cbn [_rounds].
  rewrite lookup_insert. destruct (decide (msg_sender env = a)) as [ <- | ]; reflexivity.
Qed.

Lemma player_of_guessedState env g s a :
  player_of (guessedState env g s) a =
  if decide (msg_sender env = a)
  then mkPlayer (secret (player_of s a)) (evaluate g (secret (player_of s a)))
                (joined (player_of s a))
  else player_of s a.
Proof.
  unfold guessedState, player_of. cbn [_players].
  rewrite lookup_insert. destruct (decide (msg_sender env = a)) as [ <- | ]; reflexivity.
Qed.

Lemma joinGame_Ok_inv env s c s' :
  joinGame env s = Ok c s' ->
  c = CtTrivial (derivedSecret env (msg_sender env) (_nonce s + 1)) /\ s' = joinedState env s.
Proof.
  rewrite joinGame_run.
  destruct (negb (msg_value env =? ENTRY_FEE)); [ discriminate | ].
  destruct (_nonce s + 1 >? MAX_UINT256); [ discriminate | ].
  destruct (block_number env <? 1); [ discriminate | ].
  destruct (round_of s (msg_sender env) + 1 >? MAX_UINT256); [ discriminate | ].
  intros H. injection H as <- <-. split; reflexivity.
Qed.

Lemma joinGame_Ok_intro env s :
  msg_value env = ENTRY_FEE ->
  _nonce s < MAX_UINT256 ->
  1 <= block_number env ->
  round_of s (msg_sender env) < MAX_UINT256 ->
  joinGame env s
  = Ok (CtTrivial (derivedSecret env (msg_sender env) (_nonce s + 1))) (joinedState env s).
Proof.
  intros Hfee Hn Hb Hr. rewrite joinGame_run, Hfee, Z.eqb_refl. cbn [negb].
  destruct (Z.gtb_spec (_nonce s + 1) MAX_UINT256); [ lia | ].
  destruct (Z.ltb_spec (block_number env) 1); [ lia | ].
  destruct (Z.gtb_spec (round_of s (msg_sender env) + 1) MAX_UINT256); [ lia | ].
  reflexivity.
Qed.

Lemma submitGuess_Ok_inv env h proof s s' :
  submitGuess env h proof s = Ok tt s' ->
  exists v, verifyInput env h proof = Some v /\
            hasJoined s (msg_sender env) = true /\
            s' = guessedState env (CtInput h v) s.
Proof.
  rewrite submitGuess_run. unfold hasJoined.
  destruct (joined (player_of s (msg_sender env))); [ | discriminate ].
  cbn [negb].
  destruct (verifyInput env h proof) as [v | ]; [ | discriminate ].
  intros H. injection H as <-. exists v. repeat split.
Qed.

(** *** The guess evaluator *)

(** C1. For a joined caller whose secret decrypts to [s] and a verified guess
    hiding [g], both in [1,20], [submitGuess] succeeds and stores a result
    that decrypts to 1 exactly when [g = s], to 2 exactly when [|g-s| = 1], to
    3 exactly when [|g-s| = 2], and to 4 exactly in the remaining case; and
    with the roles of [s] and [g] exchanged (any caller whose secret is [g],
    guessing [s]) the stored result decrypts to the same code. *)
Theorem submitGuess_classifies_distance :
  forall (env : Env) (st : State) (h : Z) (proof : list Z) (s g : Z),
    hasJoined st (msg_sender env) = true ->
    decrypt (getEncryptedSecret st (msg_sender env)) = s ->
    verifyInput env h proof = Some g ->
    1 <= s <= 20 ->
    1 <= g <= 20 ->
    exists st',
      submitGuess env h proof st = Ok tt st' /\
      let code := decrypt (getLatestResult st' (msg_sender env)) in
      (code = 1 <-> g = s) /\
      (code = 2 <-> Z.abs (g - s) = 1) /\
      (code = 3 <-> Z.abs (g - s) = 2) /\
      (code = 4 <-> ~ (g = s \/ Z.abs (g - s) = 1 \/ Z.abs (g - s) = 2)) /\
      forall (env2 : Env) (st2 : State) (h2 : Z) (proof2 : list Z),
        hasJoined st2 (msg_sender env2) = true ->
        decrypt (getEncryptedSecret st2 (msg_sender env2)) = g ->
        verifyInput env2 h2 proof2 = Some s ->
        exists st2',
          submitGuess env2 h2 proof2 st2 = Ok tt st2' /\
          decrypt (getLatestResult st2' (msg_sender env2)) = code.
Proof.
  intros env st h proof s g Hj Hs Hv Hsr Hgr.
  assert (Hrun : forall e t k pf x,
             hasJoined t (msg_sender e) = true ->
             verifyInput e k pf = Some x ->
             0 <= x < 2 ^ 32 ->
             submitGuess e k pf t = Ok tt (guessedState e (CtInput k x) t) /\
             decrypt (getLatestResult (guessedState e (CtInput k x) t) (msg_sender e))
             = code_of_distance (Z.abs (x - decrypt (getEncryptedSecret t (msg_sender e))))).
  { intros e t k pf x Hjoined Hver Hx. split.
    - rewrite submitGuess_run. unfold hasJoined in Hjoined. rewrite Hjoined, Hver. reflexivity.
    - unfold getLatestResult, getEncryptedSecret, guessedState, player_of.
      cbn [_players]. rewrite lookup_insert_eq. cbn [default from_option id lastResult].
      rewrite decrypt_evaluate. cbn [decrypt]. rewrite wrap32_small by exact Hx.
      reflexivity. }
  destruct (Hrun env st h proof g Hj Hv ltac:(lia)) as [Hok Hcode].
  exists (guessedState env (CtInput h g) st). split; [ exact Hok | ].
  cbv zeta. rewrite Hcode, Hs. unfold code_of_distance.
  repeat split.
  - destruct (Z.eqb_spec (Z.abs (g - s)) 0); [ lia | ].
    destruct (Z.eqb_spec (Z.abs (g - s)) 1); [ lia | ].
    destruct (Z.eqb_spec (Z.abs (g - s)) 2); lia.
  - intros ->. rewrite Z.sub_diag. reflexivity.
  - destruct (Z.eqb_spec (Z.abs (g - s)) 0); [ lia | ].
    destruct (Z.eqb_spec (Z.abs (g - s)) 1); [ lia | ].
    destruct (Z.eqb_spec (Z.abs (g - s)) 2); lia.
  - intros ->. reflexivity.
  - destruct (Z.eqb_spec (Z.abs (g - s)) 0); [ lia | ].
    destruct (Z.eqb_spec (Z.abs (g - s)) 1); [ lia | ].
    destruct (Z.eqb_spec (Z.abs (g - s)) 2); lia.
  - intros ->. reflexivity.
  - destruct (Z.eqb_spec (Z.abs (g - s)) 0); [ lia | ].
    destruct (Z.eqb_spec (Z.abs (g - s)) 1); [ lia | ].
    destruct (Z.eqb_spec (Z.abs (g - s)) 2); lia.
  - intros Hnot.
    destruct (Z.eqb_spec (Z.abs (g - s)) 0); [ exfalso; apply Hnot; lia | ].
    destruct (Z.eqb_spec (Z.abs (g - s)) 1); [ exfalso; apply Hnot; lia | ].
    destruct (Z.eqb_spec (Z.abs (g - s)) 2); [ exfalso; apply Hnot; lia | reflexivity ].
  - intros env2 st2 h2 proof2 Hj2 Hs2 Hv2.
    destruct (Hrun env2 st2 h2 proof2 s Hj2 Hv2 ltac:(lia)) as [Hok2 Hcode2].
    exists (guessedState env2 (CtInput h2 s) st2). split; [ exact Hok2 | ].
    rewrite Hcode2, Hs2.
    replace (Z.abs (s - g)) with (Z.abs (g - s)) by lia.
    reflexivity.
Qed.

Lemma submitGuess_classifies_distance_witness :
  exists st',
    submitGuess (Scenario.call_env Scenario.alice 0) 17 [1] Scenario.after_join = Ok tt st' /\
    decrypt (getLatestResult st' Scenario.alice) = 2.
Proof.
  destruct (submitGuess_classifies_distance
              (Scenario.call_env Scenario.alice 0) Scenario.after_join 17 [1] 18 17)
    as (st' & Hrun & _ & H2 & _).
  - vm_compute. reflexivity.
  - vm_compute. reflexivity.
  - vm_compute. reflexivity.
  - lia.
  - lia.
  - exists st'. split; [ exact Hrun | ]. apply H2. reflexivity.
Defined.

(** *** Secret derivation *)

Example alice_first_secret :
  _generateSecret (Scenario.call_env Scenario.alice ENTRY_FEE) Scenario.alice Scenario.deployed
  = Ok 18 (set_nonce 1 Scenario.deployed).
Proof. vm_compute. reflexivity. Qed.

(** C2. With [digest] the keccak256 digest of the packed concatenation of
    block timestamp, previous block's hash, participant and the nonce already
    incremented: every value [_generateSecret] returns is [digest mod 20 + 1],
    the nonce being one more afterwards; that value lies in [1,20];
    [_generateSecret] does return whenever the nonce can still be incremented
    and a previous block exists; every successful [joinGame] stores, as the
    caller's secret, a ciphertext that decrypts to that value; and [joinGame]
    succeeds for the right fee when neither counter is saturated. *)
Theorem generateSecret_is_digest_mod_20_plus_1 :
  forall (env : Env) (player : Z) (s : State),
    let digest :=
      Keccak.keccak256
        (Abi.uint256 (block_timestamp env)
         ++ Abi.bytes32 (blockhash env (block_number env - 1))
         ++ Abi.address player
         ++ Abi.uint256 (_nonce s + 1)) in
    (forall (r : Z) (s' : State),
        _generateSecret env player s = Ok r s' ->
        r = digest mod 20 + 1 /\ _nonce s' = _nonce s + 1) /\
    1 <= digest mod 20 + 1 <= 20 /\
    (_nonce s < MAX_UINT256 ->
     1 <= block_number env ->
     _generateSecret env player s = Ok (digest mod 20 + 1) (set_nonce (_nonce s + 1) s)) /\
    (forall (c : euint32) (s' : State),
        player = msg_sender env ->
        joinGame env s = Ok c s' ->
        getEncryptedSecret s' player = c /\
        c = FHE.asEuint32 (digest mod 20 + 1) /\
        decrypt c = digest mod 20 + 1 /\
        _nonce s' = _nonce s + 1) /\
    (player = msg_sender env ->
     msg_value env = ENTRY_FEE ->
     _nonce s < MAX_UINT256 ->
     1 <= block_number env ->
     getRound s player < MAX_UINT256 ->
     exists c s', joinGame env s = Ok c s').
Proof.
  intros env player s digest.
  assert (Hrange : 1 <= digest mod 20 + 1 <= 20).
  { pose proof (Z.mod_pos_bound digest 20 ltac:(lia)). lia. }
  split; [ | split; [ exact Hrange | split; [ | split ] ] ].
  - intros r s' Hok. rewrite generateSecret_run in Hok.
    destruct (_nonce s + 1 >? MAX_UINT256); [ discriminate Hok | ].
    destruct (block_number env <? 1); [ discriminate Hok | ].
    injection Hok as <- <-. split; reflexivity.
  - intros Hn Hb. rewrite generateSecret_run.
    destruct (Z.gtb_spec (_nonce s + 1) MAX_UINT256); [ lia | ].
    destruct (Z.ltb_spec (block_number env) 1); [ lia | ].
    reflexivity.
  - intros c s' -> Hok. apply joinGame_Ok_inv in Hok as [-> ->].
    unfold getEncryptedSecret. rewrite player_of_joinedState.
    destruct (decide (msg_sender env = msg_sender env)) as [ _ | Hne ]; [ | contradiction ].
    cbn [secret]. fold digest. repeat split.
    cbn [decrypt]. unfold derivedSecret. fold digest. apply wrap32_small. lia.
  - intros -> Hfee Hn Hb Hr. eexists. eexists.
    apply joinGame_Ok_intro; assumption.
Qed.

Lemma generateSecret_is_digest_mod_20_plus_1_witness :
  exists v : Z,
    _generateSecret (Scenario.call_env Scenario.alice ENTRY_FEE) Scenario.alice Scenario.deployed
    = Ok v (set_nonce 1 Scenario.deployed) /\
    1 <= v <= 20.
Proof.
  destruct (generateSecret_is_digest_mod_20_plus_1
              (Scenario.call_env Scenario.alice ENTRY_FEE) Scenario.alice Scenario.deployed)
    as (_ & Hrange & Hrun & _).
  eexists. split; [ apply Hrun | exact Hrange ].
  - vm_compute. reflexivity.
  - vm_compute. intros H. discriminate H.
Defined.

(** *** Failure paths of joinGame and submitGuess *)

(** C3. [joinGame] reverts with [InvalidEntryFee] exactly when the value sent
    differs from [ENTRY_FEE] (so in particular for fee-1 and fee+1); the revert
    is raised before anything is written, and the transaction leaves the state
    (player records, round counters, nonce) as it was. *)
Theorem joinGame_InvalidEntryFee_iff :
  forall (env : Env) (s : State),
    ((exists s', joinGame env s = Revert InvalidEntryFee s') <-> msg_value env <> ENTRY_FEE) /\
    (msg_value env <> ENTRY_FEE ->
       joinGame env s = Revert InvalidEntryFee s /\
       execute env JoinGame s = (s, Some InvalidEntryFee)) /\
    (msg_value env = ENTRY_FEE - 1 \/ msg_value env = ENTRY_FEE + 1 ->
       joinGame env s = Revert InvalidEntryFee s).
Proof.
  intros env s.
  assert (Hbad : forall t, msg_value env <> ENTRY_FEE -> joinGame env t = Revert InvalidEntryFee t).
  { intros t Hne. rewrite joinGame_run.
    destruct (Z.eqb_spec (msg_value env) ENTRY_FEE); [ contradiction | reflexivity ]. }
  split; [ split | split ].
  - intros [s' Hrev] Heq. rewrite joinGame_run, Heq, Z.eqb_refl in Hrev. cbn [negb] in Hrev.
    destruct (_nonce s + 1 >? MAX_UINT256); [ discriminate Hrev | ].
    destruct (block_number env <? 1); [ discriminate Hrev | ].
    destruct (round_of s (msg_sender env) + 1 >? MAX_UINT256); discriminate Hrev.
  - intros Hne. exists s. apply Hbad, Hne.
  - intros Hne. split; [ apply Hbad, Hne | ].
    unfold execute. rewrite (Hbad _ Hne). reflexivity.
  - intros Hone. apply Hbad. unfold ENTRY_FEE in *. lia.
Qed.

Lemma joinGame_InvalidEntryFee_iff_witness :
  joinGame (Scenario.call_env Scenario.alice (ENTRY_FEE - 1)) Scenario.deployed
  = Revert InvalidEntryFee Scenario.deployed /\
  joinGame (Scenario.call_env Scenario.alice (ENTRY_FEE + 1)) Scenario.deployed
  = Revert InvalidEntryFee Scenario.deployed.
Proof.
  split.
  - apply (joinGame_InvalidEntryFee_iff
             (Scenario.call_env Scenario.alice (ENTRY_FEE - 1)) Scenario.deployed).
    left. reflexivity.
  - apply (joinGame_InvalidEntryFee_iff
             (Scenario.call_env Scenario.alice (ENTRY_FEE + 1)) Scenario.deployed).
    right. reflexivity.
Defined.

(** C4. When the caller's [joined] flag is false, [submitGuess] reverts with
    [PlayerNotJoined] before writing anything, and the transaction leaves the
    whole state, the caller's [lastResult] included, unchanged; when the flag
    is true, [submitGuess] never reverts with [PlayerNotJoined]. *)
Theorem submitGuess_PlayerNotJoined :
  forall (env : Env) (h : Z) (proof : list Z) (s : State),
    (hasJoined s (msg_sender env) = false ->
       submitGuess env h proof s = Revert PlayerNotJoined s /\
       fst (execute env (SubmitGuess h proof) s) = s /\
       getLatestResult (fst (execute env (SubmitGuess h proof) s)) (msg_sender env)
       = getLatestResult s (msg_sender env)) /\
    (hasJoined s (msg_sender env) = true ->
       forall s', submitGuess env h proof s <> Revert PlayerNotJoined s').
Proof.
  intros env h proof s. unfold hasJoined. split.
  - intros Hj.
    assert (Hrev : submitGuess env h proof s = Revert PlayerNotJoined s).
    { rewrite submitGuess_run, Hj. reflexivity. }
    assert (Hst : fst (execute env (SubmitGuess h proof) s) = s).
    { unfold execute. rewrite Hrev. destruct (msg_value env =? 0); reflexivity. }
    split; [ exact Hrev | ]. split; [ exact Hst | ]. rewrite Hst. reflexivity.
  - intros Hj s' Hrev. rewrite submitGuess_run, Hj in Hrev. cbn [negb] in Hrev.
    destruct (verifyInput env h proof); discriminate Hrev.
Qed.

Lemma submitGuess_PlayerNotJoined_witness :
  submitGuess (Scenario.call_env Scenario.alice 0) 10 [1] Scenario.deployed
  = Revert PlayerNotJoined Scenario.deployed /\
  forall s', submitGuess (Scenario.call_env Scenario.alice 0) 10 [1] Scenario.after_join
             <> Revert PlayerNotJoined s'.
Proof.
  split.
  - apply (submitGuess_PlayerNotJoined
             (Scenario.call_env Scenario.alice 0) 10 [1] Scenario.deployed).
    reflexivity.
  - apply (submitGuess_PlayerNotJoined
             (Scenario.call_env Scenario.alice 0) 10 [1] Scenario.after_join).
    vm_compute. reflexivity.
Defined.

(** *** joinGame: the reset and the round counter *)

(** C5. Every successful [joinGame] leaves the caller's record with the
    freshly derived secret, with [lastResult] set to the encryption of the
    sentinel 0 and with [joined] true, whatever the record held before; and
    the call succeeds under conditions that do not mention the caller's record
    (right fee, nonce and round counter not saturated, a previous block), so an
    already joined caller, with or without an evaluated guess, may join again
    and gets the same reset. *)
Theorem joinGame_full_reset :
  forall (env : Env) (s : State),
    (forall c s',
        joinGame env s = Ok c s' ->
        c = FHE.asEuint32 (derivedSecret env (msg_sender env) (_nonce s + 1)) /\
        getEncryptedSecret s' (msg_sender env) = c /\
        getLatestResult s' (msg_sender env) = FHE.asEuint32 0 /\
        decrypt (getLatestResult s' (msg_sender env)) = 0 /\
        hasJoined s' (msg_sender env) = true) /\
    (msg_value env = ENTRY_FEE ->
     _nonce s < MAX_UINT256 ->
     1 <= block_number env ->
     getRound s (msg_sender env) < MAX_UINT256 ->
     exists c s', joinGame env s = Ok c s').
Proof.
  intros env s. split.
  - intros c s' Hok. apply joinGame_Ok_inv in Hok as [-> ->].
    unfold getEncryptedSecret, getLatestResult, hasJoined.
    rewrite player_of_joinedState.
    destruct (decide (msg_sender env = msg_sender env)) as [ _ | Hne ]; [ | contradiction ].
    cbn [secret lastResult joined]. repeat split.
  - intros Hfee Hn Hb Hr. eexists. eexists.
    apply joinGame_Ok_intro; assumption.
Qed.

Lemma joinGame_full_reset_witness :
  decrypt (getLatestResult Scenario.after_guess Scenario.alice) = 4 /\
  exists c s',
    joinGame (Scenario.call_env Scenario.alice ENTRY_FEE) Scenario.after_guess = Ok c s' /\
    decrypt (getLatestResult s' Scenario.alice) = 0 /\
    hasJoined s' Scenario.alice = true.
Proof.
  split; [ vm_compute; reflexivity | ].
  destruct (joinGame_full_reset (Scenario.call_env Scenario.alice ENTRY_FEE) Scenario.after_guess)
    as [Hreset Hsucc].
  destruct Hsucc as (c & s' & Hok).
  - reflexivity.
  - vm_compute. reflexivity.
  - vm_compute. intros H. discriminate H.
  - vm_compute. reflexivity.
  - exists c, s'. split; [ exact Hok | ].
    destruct (Hreset c s' Hok) as (_ & _ & _ & Hzero & Hjoined).
    split; [ exact Hzero | exact Hjoined ].
Defined.






(** *** Access control over the secret *)

(** C7, as stated, fails: after Alice's successful join on the fresh
    deployment the contract may read her new secret, and Alice may not. *)
Lemma joinGame_allows_participant_counterexample :
  exists s',
    joinGame (Scenario.call_env Scenario.alice ENTRY_FEE) Scenario.deployed
    = Ok (CtTrivial 18) s' /\
    getEncryptedSecret s' Scenario.alice = CtTrivial 18 /\
    isAllowed (CtTrivial 18) Scenario.gameAddress (acl s') = true /\
    isAllowed (CtTrivial 18) Scenario.alice (acl s') = false.
Proof.
  exists (joinedState (Scenario.call_env Scenario.alice ENTRY_FEE) Scenario.deployed).
  repeat split; vm_compute; reflexivity.
Qed.

(** C7, amended. A successful [joinGame] records exactly two allowances, both
    for the contract itself: one over the new secret ciphertext and one over
    the reset result.  It records none for the joining participant: for every
    address other than the contract, and every handle, the authorisation after
    the call is what it was before. *)
Theorem joinGame_allows_contract_only :
  forall (env : Env) (s : State) (c : euint32) (s' : State),
    joinGame env s = Ok c s' ->
    acl s' = (getLatestResult s' (msg_sender env), this env) :: (c, this env) :: acl s /\
    isAllowed c (this env) (acl s') = true /\
    isAllowed (getLatestResult s' (msg_sender env)) (this env) (acl s') = true /\
    (forall (h : euint32) (a : Z),
        a <> this env -> isAllowed h a (acl s') = isAllowed h a (acl s)).
Proof.
  intros env s c s' Hok. apply joinGame_Ok_inv in Hok as [-> ->].
  unfold getLatestResult. rewrite player_of_joinedState.
  destruct (decide (msg_sender env = msg_sender env)) as [ _ | Hne ]; [ | contradiction ].
  cbn [lastResult]. unfold joinedState at 1 2 3. cbn [acl].
  split; [ reflexivity | ]. split; [ | split ].
  - unfold isAllowed. cbn [existsb fst snd].
    rewrite euint32_eqb_trivial, Z.eqb_refl. cbn. apply orb_true_r.
  - unfold isAllowed. cbn [existsb fst snd].
    rewrite euint32_eqb_trivial, Z.eqb_refl. reflexivity.
  - intros h a Hne. unfold joinedState, isAllowed. cbn [acl existsb fst snd].
    destruct (Z.eqb_spec (this env) a) as [ Heq | _ ].
    + exfalso. apply Hne. symmetry. exact Heq.
    + rewrite !andb_false_r. reflexivity.
Qed.

Lemma joinGame_allows_contract_only_witness :
  exists s',
    joinGame (Scenario.call_env Scenario.alice ENTRY_FEE) Scenario.deployed
    = Ok (CtTrivial 18) s' /\
    acl s' = [ (CtTrivial 0, Scenario.gameAddress); (CtTrivial 18, Scenario.gameAddress) ] /\
    isAllowed (CtTrivial 18) Scenario.alice (acl s')
    = isAllowed (CtTrivial 18) Scenario.alice (acl Scenario.deployed).
Proof.
  exists (joinedState (Scenario.call_env Scenario.alice ENTRY_FEE) Scenario.deployed).
  assert (Hok : joinGame (Scenario.call_env Scenario.alice ENTRY_FEE) Scenario.deployed
                = Ok (CtTrivial 18)
                     (joinedState (Scenario.call_env Scenario.alice ENTRY_FEE) Scenario.deployed)).
  { vm_compute. reflexivity. }
  destruct (joinGame_allows_contract_only _ _ _ _ Hok) as (Hacl & _ & _ & Hother).
  split; [ exact Hok | ]. split.
  - rewrite Hacl. vm_compute. reflexivity.
  - apply Hother. vm_compute. intros H. discriminate H.
Defined.

(** *** withdraw *)



(** *** submitGuess: frame and result codes *)

(** C9. A successful [submitGuess] changes, in contract storage, only the
    caller's [lastResult] (which becomes the evaluation of the verified guess
    against the stored secret): the caller's secret and [joined] flag, every
    round counter, the nonce, the owner, the held balance and every other
    identity's record are as before. *)
Theorem submitGuess_writes_only_lastResult :
  forall (env : Env) (h : Z) (proof : list Z) (s s' : State),
    submitGuess env h proof s = Ok tt s' ->
    getEncryptedSecret s' (msg_sender env) = getEncryptedSecret s (msg_sender env) /\
    hasJoined s' (msg_sender env) = hasJoined s (msg_sender env) /\
    (forall a, getRound s' a = getRound s a) /\
    _nonce s' = _nonce s /\
    (forall a, a <> msg_sender env -> player_of s' a = player_of s a) /\
    _owner s' = _owner s /\
    balance s' = balance s /\
    (exists v, verifyInput env h proof = Some v /\
               getLatestResult s' (msg_sender env)
               = evaluate (CtInput h v) (getEncryptedSecret s (msg_sender env))).
Proof.
  intros env h proof s s' Hok.
  apply submitGuess_Ok_inv in Hok as (v & Hv & _ & ->).
  unfold getEncryptedSecret, hasJoined, getLatestResult.
  rewrite !player_of_guessedState.
  destruct (decide (msg_sender env = msg_sender env)) as [ _ | Hne ]; [ | contradiction ].
  cbn [secret lastResult joined].
  repeat split.
  - intros a Hne. rewrite player_of_guessedState.
    destruct (decide (msg_sender env = a)) as [ Heq | _ ]; [ | reflexivity ].
    exfalso. apply Hne. symmetry. exact Heq.
  - exists v. split; [ exact Hv | reflexivity ].
Qed.

Lemma submitGuess_writes_only_lastResult_witness :
  exists s',
    submitGuess (Scenario.call_env Scenario.alice 0) 10 [1] Scenario.after_join = Ok tt s' /\
    getEncryptedSecret s' Scenario.alice = CtTrivial 18 /\
    hasJoined s' Scenario.alice = true /\
    getRound s' Scenario.alice = 1 /\
    _nonce s' = 1.
Proof.
  exists (guessedState (Scenario.call_env Scenario.alice 0) (CtInput 10 10) Scenario.after_join).
  assert (Hok : submitGuess (Scenario.call_env Scenario.alice 0) 10 [1] Scenario.after_join
                = Ok tt (guessedState (Scenario.call_env Scenario.alice 0) (CtInput 10 10)
                           Scenario.after_join)).
  { vm_compute. reflexivity. }
  destruct (submitGuess_writes_only_lastResult _ _ _ _ _ Hok)
    as (Hsec & Hjoin & Hround & Hnonce & _).
  change (msg_sender (Scenario.call_env Scenario.alice 0)) with Scenario.alice in Hsec, Hjoin.
  split; [ exact Hok | ].
  split; [ rewrite Hsec; vm_compute; reflexivity | ].
  split; [ rewrite Hjoin; vm_compute; reflexivity | ].
  split; [ rewrite Hround; vm_compute; reflexivity | ].
  rewrite Hnonce. vm_compute. reflexivity.
Defined.





(** ** Further properties of the contract *)

Import Tally.

(** *** When a transaction succeeds *)

Lemma execute_success env c s :
  snd (execute env c s) = None ->
  match c with
  | JoinGame => msg_value env = ENTRY_FEE
  | SubmitGuess _ _ => msg_value env = 0
  | Withdraw recipient amount =>
      msg_value env = 0 /\ msg_sender env = _owner s /\ recipient <> 0 /\
      amount <> 0 /\ amount <= balance s /\ call_accepts env recipient amount = true
  end.
Proof.
  destruct c as [ | h proof | recipient amount ]; unfold execute.
  - rewrite joinGame_run.
    destruct (Z.eqb_spec (msg_value env) ENTRY_FEE) as [ Heq | _ ]; [ intros _; exact Heq | ].
    cbn. discriminate.
  - destruct (Z.eqb_spec (msg_value env) 0) as [ Heq | _ ]; [ intros _; exact Heq | ].
    cbn. discriminate.
  - destruct (Z.eqb_spec (msg_value env) 0) as [ Hval | _ ]; [ | cbn; discriminate ].
    rewrite withdraw_run.
    destruct (Z.eqb_spec (msg_sender env) (_owner s)) as [ Hown | _ ]; [ | cbn; discriminate ].
    destruct (Z.eqb_spec recipient 0) as [ | Hrec ]; [ cbn; discriminate | ].
    destruct (Z.eqb_spec amount 0) as [ | Hnz ]; [ cbn; discriminate | ].
    destruct (Z.gtb_spec amount (balance s)) as [ | Hle ]; [ cbn; discriminate | ].
    destruct (call_accepts env recipient amount); [ | cbn; discriminate ].
    intros _. repeat split; assumption || lia.
Qed.

Section TraceInduction.

Variable Q : Env -> Prop.
Variable P : State -> Prop.
Hypothesis step : forall env c s, Q env -> P s -> P (fst (execute env c s)).

Lemma run_preserves txs :
  forall s, Forall (fun tx => Q (fst tx)) txs -> P s -> P (run txs s).
Proof.
  induction txs as [ | [env c] rest IH ]; intros s Hall Hs.
  - exact Hs.
  - cbn [run]. inversion Hall as [ | tx l Hq Hrest ]; subst.
    apply IH; [ exact Hrest | ]. apply step; [ exact Hq | exact Hs ].
Qed.

End TraceInduction.

Lemma Forall_True_env (txs : list (Env * Call)) : Forall (fun tx => True) txs.
Proof. induction txs; constructor; trivial. Qed.

(** Case analysis on a transaction: it failed and left [s], or it is one of
    the three calls and left the state [execute_shape] names. *)
Ltac by_shape env c s :=
  let Hshape := fresh "Hshape" in
  let Hsucc := fresh "Hsucc" in
  pose proof (execute_shape env c s) as Hshape;
  pose proof (execute_success env c s) as Hsucc;
  destruct (snd (execute env c s)) as [ ? | ];
  [ clear Hsucc; rewrite Hshape
  | specialize (Hsucc eq_refl);
    destruct c as [ | ? ? | ? ? ];
    [ rewrite Hshape
    | let v := fresh "v" in
      let Hv := fresh "Hv" in
      let Hj := fresh "Hj" in
      destruct Hshape as (v & Hv & Hj & ->)
    | rewrite Hshape ] ].

(** *** The owner *)

Lemma execute_owner env c s : _owner (fst (execute env c s)) = _owner s.
Proof. by_shape env c s; reflexivity. Qed.

(** X1. The owner is set once, to the deployer, and no transaction changes
    it: after any sequence of transactions [owner()] is still the sender of the
    constructor call. *)
Theorem owner_is_always_the_deployer :
  forall (env0 : Env) (txs : list (Env * Call)),
    owner (run txs (constructor env0)) = msg_sender env0.
Proof.
  intros env0 txs. unfold owner.
  apply (run_preserves (fun _ => True) (fun s => _owner s = msg_sender env0)).
  - intros env c s _ Hs. rewrite execute_owner. exact Hs.
  - apply Forall_True_env.
  - reflexivity.
Qed.

(** *** The joined flag *)

Lemma execute_joined env c s p :
  hasJoined s p = true -> hasJoined (fst (execute env c s)) p = true.
Proof.
  intros Hjoined. by_shape env c s; try exact Hjoined.
  - unfold hasJoined. rewrite player_of_joinedState.
    destruct (decide (msg_sender env = p)); [ reflexivity | exact Hjoined ].
  - unfold hasJoined. rewrite player_of_guessedState.
    destruct (decide (msg_sender env = p)); exact Hjoined.
Qed.

(** X2. Joining is permanent: once [hasJoined] is true for an identity it
    stays true through every later transaction, of anyone; nothing in the
    contract clears the flag. *)
Theorem hasJoined_is_permanent :
  forall (txs : list (Env * Call)) (s : State) (p : Z),
    hasJoined s p = true -> hasJoined (run txs s) p = true.
Proof.
  intros txs s p Hjoined.
  apply (run_preserves (fun _ => True) (fun t => hasJoined t p = true)).
  - intros env c t _ Ht. apply execute_joined. exact Ht.
  - apply Forall_True_env.
  - exact Hjoined.
Qed.

Lemma hasJoined_is_permanent_witness :
  hasJoined (run [Scenario.alice_guesses 3; Scenario.bob_joins] Scenario.after_join)
    Scenario.alice = true.
Proof.
  apply (hasJoined_is_permanent
           [Scenario.alice_guesses 3; Scenario.bob_joins] Scenario.after_join Scenario.alice).
  vm_compute. reflexivity.
Defined.

(** *** The nonce *)



(** *** The balance *)






(** *** Records of joined and of unknown identities *)

Lemma derivedSecret_range env player nonce : 1 <= derivedSecret env player nonce <= 20.
Proof.
  unfold derivedSecret.
  pose proof (Z.mod_pos_bound
    (Keccak.keccak256
       (Abi.uint256 (block_timestamp env) ++
        Abi.bytes32 (blockhash env (block_number env - 1)) ++
        Abi.address player ++ Abi.uint256 nonce)) 20 ltac:(lia)).
  lia.
Qed.

Lemma execute_recordShape env c s p :
  recordShape s p -> recordShape (fst (execute env c s)) p.
Proof.
  intros Hinv. by_shape env c s; try exact Hinv.
  - unfold recordShape, hasJoined, getRound, getEncryptedSecret, getLatestResult.
    rewrite player_of_joinedState, round_of_joinedState.
    change (player_of (set_balance (balance s + msg_value env) s) p) with (player_of s p).
    change (round_of (set_balance (balance s + msg_value env) s) p) with (round_of s p).
    destruct (decide (msg_sender env = p)) as [ _ | _ ]; [ | exact Hinv ].
    left. cbn [secret lastResult joined isInitialized].
    split; [ reflexivity | ]. split.
    + destruct Hinv as [ (_ & Hpos & _) | (_ & Hzero) ]; unfold getRound in *; lia.
    + split; [ | reflexivity ]. eexists. split; [ reflexivity | ].
      apply derivedSecret_range.
  - unfold recordShape, hasJoined, getRound, getEncryptedSecret, getLatestResult.
    rewrite player_of_guessedState.
    change (round_of (guessedState env (CtInput encryptedGuess v) s) p) with (round_of s p).
    destruct (decide (msg_sender env = p)) as [ Heq | _ ]; [ | exact Hinv ].
    subst p. cbn [secret lastResult joined].
    destruct Hinv as [ (Hjoined & Hpos & Hsec & _) | (Hnone & _) ].
    + left. repeat split; assumption.
    + unfold hasJoined in Hj. rewrite Hnone in Hj. discriminate Hj.
Qed.

(** X6. In every state reached from deployment, each identity is in one of two
    conditions.  Either it has joined: then its round counter is positive, its
    secret is the encryption of a number between 1 and 20, and its latest
    result handle is initialised.  Or it has never joined: then [hasJoined] is
    false, the counter is 0 and both handles the views return are the null
    handle.  In particular [hasJoined] holds exactly when [getRound] is
    positive. *)
Theorem records_joined_or_untouched :
  forall (env0 : Env) (txs : list (Env * Call)) (p : Z),
    let s := run txs (constructor env0) in
    (hasJoined s p = true ->
       0 < getRound s p /\
       1 <= decrypt (getEncryptedSecret s p) <= 20 /\
       isInitialized (getEncryptedSecret s p) = true /\
       isInitialized (getLatestResult s p) = true) /\
    (hasJoined s p = false ->
       getRound s p = 0 /\
       getEncryptedSecret s p = CtNull /\
       getLatestResult s p = CtNull) /\
    (hasJoined s p = true <-> 0 < getRound s p).
Proof.
  intros env0 txs p s.
  assert (Hshape : recordShape s p).
  { apply (run_preserves (fun _ => True) (fun t => recordShape t p)).
    - intros env c t _ Ht. apply execute_recordShape. exact Ht.
    - apply Forall_True_env.
    - right. split; reflexivity. }
  destruct Hshape as [ (Hjoined & Hpos & (v & Hsec & Hv) & Hres) | (Hnone & Hzero) ].
  - split; [ | split ].
    + intros _. split; [ exact Hpos | ]. rewrite Hsec. cbn [decrypt isInitialized].
      rewrite wrap32_small by lia. repeat split; try lia. exact Hres.
    + intros Hfalse. rewrite Hjoined in Hfalse. discriminate Hfalse.
    + split; intros _; assumption.
  - assert (Hnot : hasJoined s p = false).
    { unfold hasJoined. rewrite Hnone. reflexivity. }
    split; [ | split ].
    + intros Htrue. rewrite Hnot in Htrue. discriminate Htrue.
    + intros _. unfold getEncryptedSecret, getLatestResult. rewrite Hnone.
      repeat split. exact Hzero.
    + rewrite Hnot, Hzero. split; [ discriminate | lia ].
Qed.

Lemma records_joined_or_untouched_witness :
  0 < getRound Scenario.after_guess Scenario.alice /\
  1 <= decrypt (getEncryptedSecret Scenario.after_guess Scenario.alice) <= 20 /\
  getRound Scenario.after_guess Scenario.bob = 0 /\
  getLatestResult Scenario.after_guess Scenario.bob = CtNull.
Proof.
  destruct (records_joined_or_untouched (Scenario.call_env Scenario.deployer 0)
              [Scenario.alice_joins; Scenario.alice_guesses 10] Scenario.alice)
    as (Hjoined & _ & _).
  destruct (records_joined_or_untouched (Scenario.call_env Scenario.deployer 0)
              [Scenario.alice_joins; Scenario.alice_guesses 10] Scenario.bob)
    as (_ & Hnot & _).
  destruct Hjoined as (Hpos & Hsec & _); [ vm_compute; reflexivity | ].
  destruct Hnot as (Hzero & _ & Hres); [ vm_compute; reflexivity | ].
  split; [ exact Hpos | ]. split; [ exact Hsec | ]. split; [ exact Hzero | exact Hres ].
Defined.

(** *** What joinGame leaves alone *)

(** X7. A successful [joinGame] touches nobody else: every other identity's
    record (secret, latest result, joined flag) is as before, and so are the
    owner and the balance the body was entered with. *)
Theorem joinGame_leaves_others_alone :
  forall (env : Env) (s : State) (c : euint32) (s' : State),
    joinGame env s = Ok c s' ->
    (forall a, a <> msg_sender env ->
       getEncryptedSecret s' a = getEncryptedSecret s a /\
       getLatestResult s' a = getLatestResult s a /\
       hasJoined s' a = hasJoined s a) /\
    owner s' = owner s /\
    balance s' = balance s.
Proof.
  intros env s c s' Hok. apply joinGame_Ok_inv in Hok as [_ ->].
  split; [ | split; reflexivity ].
  intros a Hne. unfold getEncryptedSecret, getLatestResult, hasJoined.
  rewrite player_of_joinedState.
  destruct (decide (msg_sender env = a)) as [ Heq | _ ]; [ | repeat split ].
  exfalso. apply Hne. symmetry. exact Heq.
Qed.

Lemma joinGame_leaves_others_alone_witness :
  exists c s',
    joinGame (Scenario.call_env Scenario.bob ENTRY_FEE) Scenario.after_guess = Ok c s' /\
    getEncryptedSecret s' Scenario.alice = CtTrivial 18 /\
    decrypt (getLatestResult s' Scenario.alice) = 4 /\
    hasJoined s' Scenario.alice = true.
Proof.
  exists (CtTrivial (derivedSecret (Scenario.call_env Scenario.bob ENTRY_FEE) Scenario.bob 2)),
         (joinedState (Scenario.call_env Scenario.bob ENTRY_FEE) Scenario.after_guess).
  assert (Hok : joinGame (Scenario.call_env Scenario.bob ENTRY_FEE) Scenario.after_guess
                = Ok (CtTrivial (derivedSecret (Scenario.call_env Scenario.bob ENTRY_FEE)
                                   Scenario.bob 2))
                     (joinedState (Scenario.call_env Scenario.bob ENTRY_FEE)
                        Scenario.after_guess)).
  { vm_compute. reflexivity. }
  destruct (joinGame_leaves_others_alone _ _ _ _ Hok) as [Hothers _].
  destruct (Hothers Scenario.alice) as (Hsec & Hres & Hjoined).
  - vm_compute. intros H. discriminate H.
  - split; [ exact Hok | ].
    rewrite Hsec, Hres, Hjoined. repeat split; vm_compute; reflexivity.
Defined.

(** *** Events *)




(** *** Allowances *)

Scheme euint32_mutual := Induction for euint32 Sort Prop
  with ebool_mutual := Induction for ebool Sort Prop.

Lemma euint32_eqb_refl (c : euint32) : euint32_eqb c c = true.
Proof.
  induction c using euint32_mutual
    with (P0 := fun b => ebool_eqb b b = true); cbn;
    rewrite ?Z.eqb_refl, ?IHc, ?IHc1, ?IHc2, ?IHc3; reflexivity.
Qed.

Lemma isAllowed_cons h a e l :
  isAllowed h a (e :: l) = (euint32_eqb (fst e) h && (snd e =? a)) || isAllowed h a l.
Proof. reflexivity. Qed.

Lemma execute_isAllowed env c s h a :
  isAllowed h a (acl s) = true -> isAllowed h a (acl (fst (execute env c s))) = true.
Proof.
  intros Hall. by_shape env c s; try exact Hall.
  - cbn [joinedState acl set_balance]. rewrite !isAllowed_cons.
    cbn [joinedState acl set_balance] in Hall. rewrite Hall. rewrite !orb_true_r. reflexivity.
  - cbn [guessedState acl]. rewrite !isAllowed_cons, Hall, !orb_true_r. reflexivity.
Qed.

(** X9. A successful [submitGuess] authorises both the caller and the
    contract itself to read the result it has just stored. *)
Theorem submitGuess_allows_caller_and_contract :
  forall (env : Env) (h : Z) (proof : list Z) (s s' : State),
    submitGuess env h proof s = Ok tt s' ->
    isAllowed (getLatestResult s' (msg_sender env)) (msg_sender env) (acl s') = true /\
    isAllowed (getLatestResult s' (msg_sender env)) (this env) (acl s') = true.
Proof.
  intros env h proof s s' Hok. apply submitGuess_Ok_inv in Hok as (v & _ & _ & ->).
  unfold getLatestResult. rewrite player_of_guessedState.
  destruct (decide (msg_sender env = msg_sender env)) as [ _ | ]; [ | contradiction ].
  cbn [lastResult guessedState acl]. rewrite !isAllowed_cons. cbn [fst snd].
  rewrite euint32_eqb_refl, !Z.eqb_refl. cbn [andb orb].
  split; [ reflexivity | apply orb_true_r ].
Qed.

Lemma submitGuess_allows_caller_and_contract_witness :
  exists s',
    submitGuess (Scenario.call_env Scenario.alice 0) 10 [1] Scenario.after_join = Ok tt s' /\
    isAllowed (getLatestResult s' Scenario.alice) Scenario.alice (acl s') = true.
Proof.
  exists (guessedState (Scenario.call_env Scenario.alice 0) (CtInput 10 10) Scenario.after_join).
  assert (Hok : submitGuess (Scenario.call_env Scenario.alice 0) 10 [1] Scenario.after_join
                = Ok tt (guessedState (Scenario.call_env Scenario.alice 0) (CtInput 10 10)
                           Scenario.after_join)).
  { vm_compute. reflexivity. }
  split; [ exact Hok | ].
  apply (submitGuess_allows_caller_and_contract _ _ _ _ _ Hok).
Defined.

(** X10. Allowances are never revoked: whoever may read a handle may still
    read it after any sequence of transactions.  So a player who joins again
    keeps the right to read the result of the earlier round. *)
Theorem allowances_are_never_revoked :
  forall (txs : list (Env * Call)) (s : State) (h : euint32) (a : Z),
    isAllowed h a (acl s) = true -> isAllowed h a (acl (run txs s)) = true.
Proof.
  intros txs s h a Hall.
  apply (run_preserves (fun _ => True) (fun t => isAllowed h a (acl t) = true)).
  - intros env c t _ Ht. apply execute_isAllowed. exact Ht.
  - apply Forall_True_env.
  - exact Hall.
Qed.

Lemma allowances_are_never_revoked_witness :
  isAllowed (getLatestResult Scenario.after_guess Scenario.alice) Scenario.alice
    (acl (run [Scenario.alice_joins] Scenario.after_guess)) = true.
Proof.
  apply (allowances_are_never_revoked [Scenario.alice_joins] Scenario.after_guess).
  vm_compute. reflexivity.
Defined.

Lemma execute_aclShape g env c s :
  this env = g -> aclShape g (acl s) -> aclShape g (acl (fst (execute env c s))).
Proof.
  intros Hthis Hinv. unfold aclShape in *. by_shape env c s; try exact Hinv.
  - cbn [joinedState acl set_balance].
    constructor; [ left; exact Hthis | ]. constructor; [ left; exact Hthis | exact Hinv ].
  - cbn [guessedState acl].
    constructor; [ right; eexists; eexists; reflexivity | ].
    constructor; [ left; exact Hthis | exact Hinv ].
Qed.

Lemma aclShape_blocks g l p c :
  aclShape g l -> p <> g -> isInitialized c = false \/ (exists v, c = CtTrivial v) ->
  isAllowed c p l = false.
Proof.
  intros Hshape Hne Hc. induction Hshape as [ | [h a] l Hhead _ IH ].
  - reflexivity.
  - rewrite isAllowed_cons, IH, orb_false_r. cbn [fst snd] in *.
    destruct Hhead as [ -> | (x & y & ->) ].
    + destruct (Z.eqb_spec g p) as [ Heq | _ ]; [ | apply andb_false_r ].
      exfalso. apply Hne. symmetry. exact Heq.
    + destruct Hc as [ Hnull | (v & ->) ].
      * destruct c; try discriminate Hnull. reflexivity.
      * reflexivity.
Qed.

(** X11. No participant is ever authorised to read a secret.  Along any
    sequence of calls to the contract deployed at [g], starting from
    deployment, an address other than [g] is never allowed on its own stored
    secret, nor on the trivial encryption of any number. *)
Theorem secrets_are_readable_by_the_contract_only :
  forall (g : Z) (env0 : Env) (txs : list (Env * Call)) (p : Z),
    callsTo g txs ->
    p <> g ->
    let s := run txs (constructor env0) in
    isAllowed (getEncryptedSecret s p) p (acl s) = false /\
    (forall v, isAllowed (FHE.asEuint32 v) p (acl s) = false).
Proof.
  intros g env0 txs p Hcalls Hne s.
  assert (Hacl : aclShape g (acl s)).
  { apply (run_preserves (fun env => this env = g) (fun t => aclShape g (acl t))).
    - intros env c t Hthis Ht. apply execute_aclShape; assumption.
    - exact Hcalls.
    - constructor. }
  assert (Hrec : recordShape s p).
  { apply (run_preserves (fun _ => True) (fun t => recordShape t p)).
    - intros env c t _ Ht. apply execute_recordShape. exact Ht.
    - apply Forall_True_env.
    - right. split; reflexivity. }
  split.
  - apply (aclShape_blocks g); [ exact Hacl | exact Hne | ].
    destruct Hrec as [ (_ & _ & (v & Hsec & _) & _) | (Hnone & _) ].
    + right. exists v. exact Hsec.
    + left. unfold getEncryptedSecret. rewrite Hnone. reflexivity.
  - intros v. apply (aclShape_blocks g); [ exact Hacl | exact Hne | ].
    right. exists v. reflexivity.
Qed.

Lemma secrets_are_readable_by_the_contract_only_witness :
  isAllowed (getEncryptedSecret Scenario.after_guess Scenario.alice) Scenario.alice
    (acl Scenario.after_guess) = false.
Proof.
  apply (secrets_are_readable_by_the_contract_only Scenario.gameAddress
           (Scenario.call_env Scenario.deployer 0)
           [Scenario.alice_joins; Scenario.alice_guesses 10] Scenario.alice).
  - repeat constructor.
  - vm_compute. intros H. discriminate H.
Defined.

(** *** The evaluation, on every pair of handles *)

(** X12. The evaluation block classifies the true distance of any two
    plaintexts, not only of numbers in [1,20]: for all handles (a null handle
    reading as 0, a guess of any 32-bit value) the result decrypts to 1 exactly
    when the plaintexts are equal, to 2 when they differ by 1, to 3 when they
    differ by 2 and to 4 when they differ by 3 or more; the larger-minus-smaller
    subtraction never wraps; and exchanging the two handles gives the same
    code. *)
Theorem evaluate_classifies_every_pair :
  forall (g s : euint32),
    let d := Z.abs (decrypt g - decrypt s) in
    let code := decrypt (evaluate g s) in
    (code = 1 <-> decrypt g = decrypt s) /\
    (code = 2 <-> d = 1) /\
    (code = 3 <-> d = 2) /\
    (code = 4 <-> 3 <= d) /\
    decrypt (evaluate s g) = code.
Proof.
  intros g s d code. subst code. rewrite !decrypt_evaluate. fold d.
  replace (Z.abs (decrypt s - decrypt g)) with d by (subst d; lia).
  unfold code_of_distance.
  destruct (Z.eqb_spec d 0); [ subst d; repeat split; lia | ].
  destruct (Z.eqb_spec d 1); [ subst d; repeat split; lia | ].
  destruct (Z.eqb_spec d 2); subst d; repeat split; lia.
Qed.

(** *** Sequences of calls by one player *)

(** X13. Only the latest guess counts: after two successful guesses by the
    same caller, the stored result is the evaluation of the second guess
    against the secret the caller had before the first; the first guess leaves
    no trace in it, and the secret is still the same. *)
Theorem latest_guess_overwrites :
  forall (env1 env2 : Env) (h1 h2 : Z) (proof1 proof2 : list Z) (s s1 s2 : State),
    msg_sender env2 = msg_sender env1 ->
    submitGuess env1 h1 proof1 s = Ok tt s1 ->
    submitGuess env2 h2 proof2 s1 = Ok tt s2 ->
    getEncryptedSecret s2 (msg_sender env1) = getEncryptedSecret s (msg_sender env1) /\
    exists v2,
      verifyInput env2 h2 proof2 = Some v2 /\
      getLatestResult s2 (msg_sender env1)
      = evaluate (CtInput h2 v2) (getEncryptedSecret s (msg_sender env1)).
Proof.
  intros env1 env2 h1 h2 proof1 proof2 s s1 s2 Hsender Hfirst Hsecond.
  apply submitGuess_Ok_inv in Hfirst as (v1 & _ & _ & ->).
  apply submitGuess_Ok_inv in Hsecond as (v2 & Hv2 & _ & ->).
  unfold getEncryptedSecret, getLatestResult.
  rewrite !player_of_guessedState, Hsender.
  destruct (decide (msg_sender env1 = msg_sender env1)) as [ _ | ]; [ | contradiction ].
  cbn [secret lastResult]. split; [ reflexivity | ].
  exists v2. split; [ exact Hv2 | reflexivity ].
Qed.

Lemma latest_guess_overwrites_witness :
  decrypt (getLatestResult
             (run [Scenario.alice_guesses 18] Scenario.after_guess) Scenario.alice) = 1.
Proof.
  assert (H1 : submitGuess (Scenario.call_env Scenario.alice 0) 10 [1] Scenario.after_join
               = Ok tt Scenario.after_guess).
  { vm_compute. reflexivity. }
  assert (H2 : submitGuess (Scenario.call_env Scenario.alice 0) 18 [1] Scenario.after_guess
               = Ok tt (run [Scenario.alice_guesses 18] Scenario.after_guess)).
  { vm_compute. reflexivity. }
  destruct (latest_guess_overwrites _ _ _ _ _ _ _ _ _ eq_refl H1 H2) as (_ & v2 & Hv2 & Hres).
  change (msg_sender (Scenario.call_env Scenario.alice 0)) with Scenario.alice in Hres.
  vm_compute in Hv2. injection Hv2 as <-.
  rewrite Hres. vm_compute. reflexivity.
Defined.

(** X14. The scenario of the test suite, for every chain context: after a
    successful join, a guess by the same caller that hides the derived secret
    stores a result decrypting to 1, and a guess that hides the neighbour the
    tests pick (secret - 1 when the secret is 20, secret + 1 otherwise) stores
    a result decrypting to 2. *)
Theorem guessing_the_derived_secret_scores_1 :
  forall (env env2 : Env) (s s1 : State) (c : euint32) (h : Z) (proof : list Z),
    joinGame env s = Ok c s1 ->
    msg_sender env2 = msg_sender env ->
    let secretValue := decrypt c in
    secretValue = derivedSecret env (msg_sender env) (_nonce s + 1) /\
    (verifyInput env2 h proof = Some secretValue ->
     exists s2,
       submitGuess env2 h proof s1 = Ok tt s2 /\
       decrypt (getLatestResult s2 (msg_sender env)) = 1) /\
    (verifyInput env2 h proof
     = Some (if secretValue =? 20 then secretValue - 1 else secretValue + 1) ->
     exists s2,
       submitGuess env2 h proof s1 = Ok tt s2 /\
       decrypt (getLatestResult s2 (msg_sender env)) = 2).
Proof.
  intros env env2 s s1 c h proof Hjoin Hsender secretValue.
  apply joinGame_Ok_inv in Hjoin as [-> ->].
  pose proof (derivedSecret_range env (msg_sender env) (_nonce s + 1)) as Hrange.
  subst secretValue. cbn [decrypt].
  assert (Hjoined : player_of (joinedState env s) (msg_sender env)
                    = mkPlayer (CtTrivial (derivedSecret env (msg_sender env) (_nonce s + 1)))
                               (CtTrivial 0) true).
  { rewrite player_of_joinedState.
    destruct (decide (msg_sender env = msg_sender env)); [ reflexivity | contradiction ]. }
  remember (derivedSecret env (msg_sender env) (_nonce s + 1)) as sv eqn:Hsv.
  rewrite (wrap32_small sv) by lia.
  assert (Hguess : forall x, 0 <= x < 2 ^ 32 ->
            verifyInput env2 h proof = Some x ->
            exists s2,
              submitGuess env2 h proof (joinedState env s) = Ok tt s2 /\
              decrypt (getLatestResult s2 (msg_sender env))
              = code_of_distance (Z.abs (x - sv))).
  { intros x Hx Hv. eexists. split.
    - rewrite submitGuess_run, Hsender, Hjoined. cbn [joined negb]. rewrite Hv. reflexivity.
    - unfold getLatestResult. rewrite player_of_guessedState, Hsender.
      destruct (decide (msg_sender env = msg_sender env)) as [ _ | ]; [ | contradiction ].
      cbn [lastResult]. rewrite decrypt_evaluate, Hjoined.
      cbn [secret decrypt]. rewrite (wrap32_small x) by exact Hx.
      rewrite (wrap32_small sv) by lia. reflexivity. }
  split; [ reflexivity | ]. split.
  - intros Hv. destruct (Hguess sv ltac:(lia) Hv) as (s2 & Hok & Hcode).
    exists s2. split; [ exact Hok | ]. rewrite Hcode, Z.sub_diag. reflexivity.
  - intros Hv.
    assert (Hx : 0 <= (if sv =? 20 then sv - 1 else sv + 1) < 2 ^ 32).
    { destruct (sv =? 20); lia. }
    destruct (Hguess _ Hx Hv) as (s2 & Hok & Hcode).
    exists s2. split; [ exact Hok | ]. rewrite Hcode.
    destruct (sv =? 20);
      [ replace (sv - 1 - sv) with (-1) by lia | replace (sv + 1 - sv) with 1 by lia ];
      reflexivity.
Qed.

Lemma guessing_the_derived_secret_scores_1_witness :
  (exists s2,
     submitGuess (Scenario.call_env Scenario.alice 0) 18 [1]
       (joinedState (Scenario.call_env Scenario.alice ENTRY_FEE) Scenario.deployed) = Ok tt s2 /\
     decrypt (getLatestResult s2 Scenario.alice) = 1) /\
  (exists s2,
     submitGuess (Scenario.call_env Scenario.alice 0) 19 [1]
       (joinedState (Scenario.call_env Scenario.alice ENTRY_FEE) Scenario.deployed) = Ok tt s2 /\
     decrypt (getLatestResult s2 Scenario.alice) = 2).
Proof.
  assert (Hjoin : joinGame (Scenario.call_env Scenario.alice ENTRY_FEE) Scenario.deployed
                  = Ok (CtTrivial 18)
                       (joinedState (Scenario.call_env Scenario.alice ENTRY_FEE)
                          Scenario.deployed)).
  { vm_compute. reflexivity. }
  split.
  - apply (guessing_the_derived_secret_scores_1
             _ (Scenario.call_env Scenario.alice 0) _ _ _ 18 [1] Hjoin eq_refl).
    vm_compute. reflexivity.
  - apply (guessing_the_derived_secret_scores_1
             _ (Scenario.call_env Scenario.alice 0) _ _ _ 19 [1] Hjoin eq_refl).
    vm_compute. reflexivity.
Defined.

(** *** The bytes that are hashed *)

Lemma be_bytes_length n v : length (Abi.be_bytes n v) = n.
Proof. unfold Abi.be_bytes. rewrite length_map, length_seq. reflexivity. Qed.

Lemma be_bytes_S n v :
  Abi.be_bytes (S n) v = Abi.be_bytes n (v / 256) ++ [v mod 256].
Proof.
  unfold Abi.be_bytes. rewrite seq_S, map_app. cbn [map]. f_equal.
  - apply map_ext_in. intros i Hi. apply in_seq in Hi.
    replace (S n - 1 - i)%nat with (S (n - 1 - i)) by lia.
    rewrite Nat2Z.inj_succ, Z.pow_succ_r by lia.
    rewrite Z.div_div by lia. reflexivity.
  - replace (S n - 1 - (0 + n))%nat with 0%nat by lia.
    cbn [Z.of_nat]. rewrite Z.pow_0_r, Z.div_1_r. reflexivity.
Qed.

Lemma be_value_snoc l b : Keccak.be_value (l ++ [b]) = 256 * Keccak.be_value l + b.
Proof. unfold Keccak.be_value. rewrite fold_left_app. reflexivity. Qed.

(** Reading the [n] big-endian bytes of a word back gives the word, cut to [n] bytes. *)
Lemma be_value_be_bytes n : forall v,
  Keccak.be_value (Abi.be_bytes n v) = v mod 256 ^ Z.of_nat n.
Proof.
  induction n as [ | n IH ]; intros v.
  - cbn. rewrite Z.mod_1_r. reflexivity.
  - rewrite be_bytes_S, be_value_snoc, IH.
    rewrite Nat2Z.inj_succ, Z.pow_succ_r by lia.
    rewrite Z.rem_mul_r by lia. lia.
Qed.

Lemma be_bytes_inj n v w :
  Abi.be_bytes n v = Abi.be_bytes n w -> v mod 256 ^ Z.of_nat n = w mod 256 ^ Z.of_nat n.
Proof. intros H. rewrite <- !be_value_be_bytes, H. reflexivity. Qed.

(** X15. The byte string [_generateSecret] hashes is 116 bytes long and
    determines each of the four packed words (timestamp, previous block hash,
    player, nonce); so two derivations with different nonces never hash the
    same bytes.  And each derivation hashes the nonce it has just incremented,
    which is larger than every nonce hashed before and still a [uint256]. *)
Theorem hashed_bytes_determine_the_nonce :
  (forall t b p n, length (preimage t b p n) = 116%nat) /\
  (forall t1 b1 p1 n1 t2 b2 p2 n2,
      preimage t1 b1 p1 n1 = preimage t2 b2 p2 n2 ->
      t1 mod 2 ^ 256 = t2 mod 2 ^ 256 /\
      b1 mod 2 ^ 256 = b2 mod 2 ^ 256 /\
      p1 mod 2 ^ 160 = p2 mod 2 ^ 160 /\
      n1 mod 2 ^ 256 = n2 mod 2 ^ 256) /\
  (forall t1 b1 p1 n1 t2 b2 p2 n2,
      0 <= n1 <= MAX_UINT256 -> 0 <= n2 <= MAX_UINT256 -> n1 <> n2 ->
      preimage t1 b1 p1 n1 <> preimage t2 b2 p2 n2) /\
  (forall (env : Env) (player : Z) (s : State) (r : Z) (s' : State),
      _generateSecret env player s = Ok r s' ->
      r = Keccak.keccak256
            (preimage (block_timestamp env) (blockhash env (block_number env - 1))
               player (_nonce s')) mod 20 + 1 /\
      _nonce s < _nonce s' <= MAX_UINT256).
Proof.
  assert (Hinj : forall t1 b1 p1 n1 t2 b2 p2 n2,
             preimage t1 b1 p1 n1 = preimage t2 b2 p2 n2 ->
             t1 mod 2 ^ 256 = t2 mod 2 ^ 256 /\
             b1 mod 2 ^ 256 = b2 mod 2 ^ 256 /\
             p1 mod 2 ^ 160 = p2 mod 2 ^ 160 /\
             n1 mod 2 ^ 256 = n2 mod 2 ^ 256).
  { intros t1 b1 p1 n1 t2 b2 p2 n2.
    unfold preimage, Abi.encodePacked, Abi.uint256, Abi.bytes32, Abi.address.
    cbn [concat]. rewrite !app_nil_r. intros H.
    apply app_inj_1 in H as [Ht H]; [ | rewrite !be_bytes_length; reflexivity ].
    apply app_inj_1 in H as [Hb H]; [ | rewrite !be_bytes_length; reflexivity ].
    apply app_inj_1 in H as [Hp Hn]; [ | rewrite !be_bytes_length; reflexivity ].
    apply be_bytes_inj in Ht, Hb, Hp, Hn.
    change (256 ^ Z.of_nat 32) with (2 ^ 256) in Ht, Hb, Hn.
    change (256 ^ Z.of_nat 20) with (2 ^ 160) in Hp.
    repeat split; assumption. }
  split; [ | split; [ exact Hinj | split ] ].
  - intros t b p n.
    unfold preimage, Abi.encodePacked, Abi.uint256, Abi.bytes32, Abi.address.
    cbn [concat]. rewrite !length_app, !be_bytes_length. reflexivity.
  - intros t1 b1 p1 n1 t2 b2 p2 n2 H1 H2 Hne Heq.
    apply Hinj in Heq as (_ & _ & _ & Hn).
    unfold MAX_UINT256 in *.
    rewrite !Z.mod_small in Hn by lia. contradiction.
  - intros env player s r s' Hok. rewrite generateSecret_run in Hok.
    destruct (Z.gtb_spec (_nonce s + 1) MAX_UINT256) as [ | Hle ]; [ discriminate Hok | ].
    destruct (block_number env <? 1); [ discriminate Hok | ].
    injection Hok as <- <-. cbn [set_nonce _nonce]. split; [ | lia ].
    unfold derivedSecret, preimage, Abi.encodePacked. cbn [concat].
    rewrite app_nil_r. reflexivity.
Qed.

Lemma hashed_bytes_determine_the_nonce_witness :
  preimage 1700000000 7 Scenario.alice 1 <> preimage 1700000000 7 Scenario.alice 2.
Proof.
  destruct hashed_bytes_determine_the_nonce as (_ & _ & Hdiff & _).
  apply Hdiff.
  - unfold MAX_UINT256. lia.
  - unfold MAX_UINT256. lia.
  - lia.
Defined.

(** *** Errors *)

(** X16. Which errors each function can raise, and when.  [joinGame] reverts
    only with [InvalidEntryFee], having written nothing, or with the arithmetic
    panic 0x11.  [submitGuess] reverts only with [PlayerNotJoined] or because
    the input verifier rejects the guess, and [withdraw] only with [NotOwner],
    [InvalidRecipient], [InvalidAmount] or [WithdrawalFailed]; in all these
    cases the state at the point of the revert is the state the call started
    from. *)
Theorem reverts_come_before_any_write :
  (forall (env : Env) (s : State) (e : Error) (s' : State),
      joinGame env s = Revert e s' ->
      (e = InvalidEntryFee /\ s' = s) \/ e = Panic 0x11) /\
  (forall (env : Env) (h : Z) (proof : list Z) (s : State) (e : Error) (s' : State),
      submitGuess env h proof s = Revert e s' ->
      (e = PlayerNotJoined \/ e = InvalidInput) /\ s' = s) /\
  (forall (env : Env) (recipient amount : Z) (s : State) (e : Error) (s' : State),
      withdraw env recipient amount s = Revert e s' ->
      (e = NotOwner \/ e = InvalidRecipient \/ e = InvalidAmount \/ e = WithdrawalFailed) /\
      s' = s).
Proof.
  split; [ | split ].
  - intros env s e s' Hrev. rewrite joinGame_run in Hrev.
    destruct (negb (msg_value env =? ENTRY_FEE)).
    { injection Hrev as <- <-. left. split; reflexivity. }
    destruct (_nonce s + 1 >? MAX_UINT256).
    { injection Hrev as <- _. right. reflexivity. }
    destruct (block_number env <? 1).
    { injection Hrev as <- _. right. reflexivity. }
    destruct (round_of s (msg_sender env) + 1 >? MAX_UINT256); [ | discriminate Hrev ].
    injection Hrev as <- _. right. reflexivity.
  - intros env h proof s e s' Hrev. rewrite submitGuess_run in Hrev.
    destruct (negb (joined (player_of s (msg_sender env)))).
    { injection Hrev as <- <-. split; [ left | ]; reflexivity. }
    destruct (verifyInput env h proof); [ discriminate Hrev | ].
    injection Hrev as <- <-. split; [ right | ]; reflexivity.
  - intros env recipient amount s e s' Hrev. rewrite withdraw_run in Hrev.
    destruct (negb (msg_sender env =? _owner s)).
    { injection Hrev as <- <-. split; [ left | ]; reflexivity. }
    destruct (recipient =? 0).
    { injection Hrev as <- <-. split; [ right; left | ]; reflexivity. }
    destruct ((amount =? 0) || (amount >? balance s)).
    { injection Hrev as <- <-. split; [ right; right; left | ]; reflexivity. }
    destruct (call_accepts env recipient amount); [ discriminate Hrev | ].
    injection Hrev as <- <-. split; [ right; right; right | ]; reflexivity.
Qed.

Lemma reverts_come_before_any_write_witness :
  exists e s',
    withdraw (Scenario.call_env Scenario.deployer 0) Scenario.gameAddress 1 Scenario.after_join
    = Revert e s' /\
    s' = Scenario.after_join.
Proof.
  exists WithdrawalFailed, Scenario.after_join.
  assert (Hrev : withdraw (Scenario.call_env Scenario.deployer 0) Scenario.gameAddress 1
                   Scenario.after_join
                 = Revert WithdrawalFailed Scenario.after_join).
  { vm_compute. reflexivity. }
  split; [ exact Hrev | ].
  destruct reverts_come_before_any_write as (_ & _ & Hw).
  destruct (Hw _ _ _ _ _ _ Hrev) as [_ Hsame]. exact Hsame.
Defined.

(** *** The front end *)

Lemma interpretResult_some (v : Z) :
  is_Some (GameApp.interpretResult v) <-> 1 <= v <= 4.
Proof.
  split.
  - intros [m Hm]. destruct v as [ | p | p ]; [ discriminate Hm | | discriminate Hm ].
    destruct p as [ p | p | ]; [ | | lia ].
    + destruct p as [ p | p | ]; [ discriminate Hm | discriminate Hm | lia ].
    + destruct p as [ p | p | ]; [ discriminate Hm | | lia ].
      destruct p as [ p | p | ]; [ discriminate Hm | discriminate Hm | lia ].
  - intros Hv.
    assert (Hcases : v = 1 \/ v = 2 \/ v = 3 \/ v = 4) by lia.
    destruct Hcases as [ -> | [ -> | [ -> | -> ] ] ]; eexists; reflexivity.
Qed.

(** X17. [interpretResult] has a message for exactly the four result codes,
    and a different one for each; so the front end shows a message for every
    result [submitGuess] stores, tells the four outcomes apart, and shows none
    for the sentinel that [joinGame] stores. *)
Theorem interpretResult_covers_exactly_the_codes :
  (forall v : Z, is_Some (GameApp.interpretResult v) <-> 1 <= v <= 4) /\
  (forall v w m,
      GameApp.interpretResult v = Some m -> GameApp.interpretResult w = Some m -> v = w) /\
  (forall (env : Env) (h : Z) (proof : list Z) (s s' : State),
      submitGuess env h proof s = Ok tt s' ->
      is_Some (GameApp.interpretResult (decrypt (getLatestResult s' (msg_sender env))))) /\
  (forall (env : Env) (s : State) (c : euint32) (s' : State),
      joinGame env s = Ok c s' ->
      GameApp.interpretResult (decrypt (getLatestResult s' (msg_sender env))) = None).
Proof.
  split; [ exact interpretResult_some | split; [ | split ] ].
  - intros v w m Hv Hw.
    assert (Hvr : 1 <= v <= 4) by (apply interpretResult_some; eexists; exact Hv).
    assert (Hwr : 1 <= w <= 4) by (apply interpretResult_some; eexists; exact Hw).
    assert (Hvc : v = 1 \/ v = 2 \/ v = 3 \/ v = 4) by lia.
    assert (Hwc : w = 1 \/ w = 2 \/ w = 3 \/ w = 4) by lia.
    destruct Hvc as [ -> | [ -> | [ -> | -> ] ] ];
      destruct Hwc as [ -> | [ -> | [ -> | -> ] ] ];
      try reflexivity; cbn in Hv, Hw; rewrite <- Hv in Hw; discriminate Hw.
  - intros env h proof s s' Hok. apply submitGuess_Ok_inv in Hok as (v & _ & _ & ->).
    apply interpretResult_some.
    unfold getLatestResult. rewrite player_of_guessedState.
    destruct (decide (msg_sender env = msg_sender env)) as [ _ | ]; [ | contradiction ].
    cbn [lastResult]. rewrite decrypt_evaluate.
    pose proof (code_of_distance_values
                  (Z.abs (decrypt (CtInput h v)
                          - decrypt (secret (player_of s (msg_sender env)))))).
    lia.
  - intros env s c s' Hok. apply joinGame_Ok_inv in Hok as [_ ->].
    unfold getLatestResult. rewrite player_of_joinedState.
    destruct (decide (msg_sender env = msg_sender env)); [ reflexivity | contradiction ].
Qed.

Lemma interpretResult_covers_exactly_the_codes_witness :
  is_Some (GameApp.interpretResult
             (decrypt (getLatestResult Scenario.after_guess Scenario.alice))) /\
  GameApp.interpretResult (decrypt (getLatestResult Scenario.after_join Scenario.alice)) = None.
Proof.
  destruct interpretResult_covers_exactly_the_codes as (_ & _ & Hguess & Hjoin).
  split.
  - apply (Hguess (Scenario.call_env Scenario.alice 0) 10 [1] Scenario.after_join).
    vm_compute. reflexivity.
  - apply (Hjoin (Scenario.call_env Scenario.alice ENTRY_FEE)
             (set_balance ENTRY_FEE Scenario.deployed) (CtTrivial 18)).
    vm_compute. reflexivity.
Defined.

(** X18. [handleGuess] gets past its early returns exactly when a wallet is
    connected, the contract address is configured, the player is shown as
    joined, the typed guess is an integer from 1 to 20 and the encryption
    instance is ready; it never goes on to encrypt a guess outside [1,20].
    When it does go on, and the guess it encrypted is accepted on chain for a
    joined caller, the stored result is the code of the distance between the
    guess and the secret, and [interpretResult] has a message for it. *)
Theorem handleGuess_submits_only_valid_guesses :
  forall (view : GameApp.View) (account n : Z),
    (GameApp.handleGuessChecks view = GameApp.Submit account n <->
     GameApp.address view = Some account /\
     GameApp.isContractConfigured view = true /\
     GameApp.hasJoined view = true /\
     GameApp.guessNumber view = Some n /\
     1 <= n <= 20 /\
     GameApp.instanceReady view = true) /\
    (GameApp.handleGuessChecks view = GameApp.Submit account n ->
     forall (env : Env) (st : State) (h : Z) (proof : list Z),
       msg_sender env = account ->
       hasJoined st account = true ->
       verifyInput env h proof = Some n ->
       exists st',
         submitGuess env h proof st = Ok tt st' /\
         decrypt (getLatestResult st' account)
         = code_of_distance (Z.abs (n - decrypt (getEncryptedSecret st account))) /\
         is_Some (GameApp.interpretResult (decrypt (getLatestResult st' account)))).
Proof.
  intros view account n.
  assert (Hiff : GameApp.handleGuessChecks view = GameApp.Submit account n <->
                 GameApp.address view = Some account /\
                 GameApp.isContractConfigured view = true /\
                 GameApp.hasJoined view = true /\
                 GameApp.guessNumber view = Some n /\
                 1 <= n <= 20 /\
                 GameApp.instanceReady view = true).
  { unfold GameApp.handleGuessChecks.
    destruct (GameApp.address view) as [ a | ];
      [ | split; [ discriminate | intros (H & _); discriminate H ] ].
    destruct (GameApp.isContractConfigured view);
      [ | split; [ discriminate | intros (_ & H & _); discriminate H ] ].
    destruct (GameApp.hasJoined view);
      [ | split; [ discriminate | intros (_ & _ & H & _); discriminate H ] ].
    cbn [negb].
    destruct (GameApp.guessNumber view) as [ m | ];
      [ | split; [ discriminate | intros (_ & _ & _ & H & _); discriminate H ] ].
    destruct (Z.ltb_spec m 1) as [ Hlow | Hlow ].
    { split; [ discriminate | ]. intros (_ & _ & _ & H & Hr & _). injection H as ->. lia. }
    destruct (Z.gtb_spec m 20) as [ Hhigh | Hhigh ].
    { split; [ discriminate | ]. intros (_ & _ & _ & H & Hr & _). injection H as ->. lia. }
    cbn [orb].
    destruct (GameApp.instanceReady view);
      [ | split; [ discriminate | intros (_ & _ & _ & _ & _ & H); discriminate H ] ].
    cbn [negb]. split.
    - intros H. injection H as -> ->. repeat split; lia.
    - intros (Ha & _ & _ & Hm & _). injection Ha as ->. injection Hm as ->. reflexivity. }
  split; [ exact Hiff | ].
  intros Hsubmit env st h proof Hsender Hjoined Hv.
  apply Hiff in Hsubmit as (_ & _ & _ & _ & Hrange & _).
  subst account.
  assert (Hcode : decrypt (getLatestResult (guessedState env (CtInput h n) st) (msg_sender env))
                  = code_of_distance
                      (Z.abs (n - decrypt (getEncryptedSecret st (msg_sender env))))).
  { unfold getLatestResult, getEncryptedSecret. rewrite player_of_guessedState.
    destruct (decide (msg_sender env = msg_sender env)) as [ _ | ]; [ | contradiction ].
    cbn [lastResult]. rewrite decrypt_evaluate. cbn [decrypt].
    rewrite (wrap32_small n) by lia. reflexivity. }
  exists (guessedState env (CtInput h n) st). split; [ | split ].
  - rewrite submitGuess_run. unfold hasJoined in Hjoined. rewrite Hjoined, Hv. reflexivity.
  - exact Hcode.
  - apply interpretResult_some. rewrite Hcode.
    pose proof (code_of_distance_values
                  (Z.abs (n - decrypt (getEncryptedSecret st (msg_sender env))))).
    lia.
Qed.

Lemma handleGuess_submits_only_valid_guesses_witness :
  exists st',
    submitGuess (Scenario.call_env Scenario.alice 0) 17 [1] Scenario.after_join = Ok tt st' /\
    decrypt (getLatestResult st' Scenario.alice) = 2.
Proof.
  destruct (handleGuess_submits_only_valid_guesses
              (GameApp.mkView (Some Scenario.alice) true true (Some 17) true)
              Scenario.alice 17) as [_ Hgo].
  destruct (Hgo eq_refl (Scenario.call_env Scenario.alice 0) Scenario.after_join 17 [1])
    as (st' & Hok & Hcode & _).
  - reflexivity.
  - vm_compute. reflexivity.
  - vm_compute. reflexivity.
  - exists st'. split; [ exact Hok | ]. rewrite Hcode. vm_compute. reflexivity.
Defined.

(** *** Who may read the latest result *)




